(** * Customer intelligence application: product store, preview cache,
      matcher and bulk email dispatch

    A shallow embedding of the JavaScript sources
    - [product-database.js]  (class [ProductDatabase]),
    - [server.js]            (the preview cache helpers, the sending and
                              preview endpoints, the sessions and the
                              authentication guard),
    - [intelligent-product-matcher.js] (class [IntelligentProductMatcher]),
    followed by the properties of the specification stated over it.

    JavaScript values are dynamically typed; the embedding keeps the
    primitive values the code inspects ([val]), plain objects as finite maps
    from property names to values, exceptions as an explicit completion,
    and every external collaborator (the clock, the file system, the
    text-generation and mail services, the template engine) as an explicit
    input. *)

From Stdlib Require Import ZArith Lia.
From stdpp Require Import base gmap list strings pretty.

Open Scope Z_scope.

(** ** JavaScript values, objects and completions *)

Module JS.

(** Primitive values.  Numbers are the integer-valued ones; [VRef r]
    stands for a reference to some nested object or array (truthy, and
    strictly equal only to itself). *)
Inductive val :=
| VUndef
| VNull
| VBool (b : bool)
| VNum (n : Z)
| VStr (s : string)
| VRef (r : positive).

#[global] Instance val_eq_dec : EqDecision val.
Proof. solve_decision. Defined.

(** ToBoolean. *)
Definition truthy (v : val) : bool :=
  match v with
  | VUndef | VNull => false
  | VBool b => b
  | VNum n => negb (n =? 0)
  | VStr s => negb (String.eqb s "")
  | VRef _ => true
  end.

(** [a || b] on values. *)
Definition or_else (a b : val) : val := if truthy a then a else b.

(** ToString, as applied by template literals. *)
Definition to_string (v : val) : string :=
  match v with
  | VUndef => "undefined"
  | VNull => "null"
  | VBool true => "true"
  | VBool false => "false"
  | VNum n => pretty n
  | VStr s => s
  | VRef _ => "[object Object]"
  end.

(** Plain objects: property name to value; reading a property that is
    not there gives [undefined]. *)
Abbreviation obj := (gmap string val).

Definition field (o : obj) (k : string) : val := default VUndef (o !! k).

(** [Object.assign(target, source)]: the source's properties win. *)
Definition assign (target source : obj) : obj := source ∪ target.

(** The outcome of evaluating a piece of code: a value, or a thrown
    [Error] of which the message is kept. *)
Inductive completion (A : Type) :=
| Normal (a : A)
| Throw (message : string).
Arguments Normal {A} a.
Arguments Throw {A} message.

(** Built-in string functions left abstract. *)
Class Builtins := {
  (** [String.prototype.toLowerCase] *)
  toLowerCase : string → string;
}.

(** [v.toLowerCase()] for an arbitrary value [v]. *)
Definition call_toLowerCase `{Builtins} (v : val) : completion string :=
  match v with
  | VStr s => Normal (toLowerCase s)
  | VUndef | VNull =>
      Throw "Cannot read properties of undefined (reading 'toLowerCase')"
  | _ => Throw "toLowerCase is not a function"
  end.

(** Lower-casing of the letters A to Z alone, for running examples. *)
Fixpoint ascii_toLowerCase (s : string) : string :=
  match s with
  | EmptyString => EmptyString
  | String a s' =>
      let n := Ascii.nat_of_ascii a in
      String (if (65 <=? n)%nat && (n <=? 90)%nat
              then Ascii.ascii_of_nat (n + 32)
              else a)
             (ascii_toLowerCase s')
  end.

Definition ascii_builtins : Builtins :=
  {| toLowerCase := ascii_toLowerCase |}.

(** [xs.slice(start, end)] for integer arguments: a negative index
    counts from the end, and both are clamped to the array. *)
Definition slice_index (len k : Z) : Z :=
  if k <? 0 then Z.max (len + k) 0 else Z.min k len.

Definition slice {A} (xs : list A) (start end_ : Z) : list A :=
  let len := Z.of_nat (length xs) in
  let from := slice_index len start in
  let upto := slice_index len end_ in
  take (Z.to_nat (upto - from)) (drop (Z.to_nat from) xs).

(** [Math.ceil(n / c)] for a natural [n] and a positive integer [c]. *)
Definition ceil_div (n c : Z) : Z := (n + c - 1) / c.

(** [s.charAt(0)]. *)
Definition charAt0 (s : string) : string :=
  match s with
  | EmptyString => ""
  | String a _ => String a ""
  end.

(** [s.slice(-k)] on strings: the last [k] characters. *)
Definition last_chars (k : nat) (s : string) : string :=
  String.string_of_list_ascii
    (drop (length (String.list_ascii_of_string s) - k)
          (String.list_ascii_of_string s)).

(** The line feed. *)
Definition nl : string := String (Ascii.ascii_of_nat 10%nat) "".

(** [s.includes(t)] on strings. *)
Fixpoint includes (s t : string) : bool :=
  String.prefix t s ||
  match s with
  | EmptyString => false
  | String _ s' => includes s' t
  end.

End JS.
Export JS.

(** ** [Map]: insertion-ordered, keyed by value *)

Module JSMap.

Abbreviation t V := (list (val * V)).

Fixpoint get {V} (k : val) (m : t V) : option V :=
  match m with
  | [] => None
  | (k', v) :: m' => if decide (k' = k) then Some v else get k m'
  end.

Definition has {V} (k : val) (m : t V) : bool :=
  match get k m with Some _ => true | None => false end.

(** [m.set(k, v)]: an existing key keeps its place, a new one goes last. *)
Fixpoint set {V} (k : val) (v : V) (m : t V) : t V :=
  match m with
  | [] => [(k, v)]
  | (k', v') :: m' =>
      if decide (k' = k) then (k', v) :: m' else (k', v') :: set k v m'
  end.

(** [m.delete(k)]. *)
Definition delete {V} (k : val) (m : t V) : t V :=
  filter (λ e, e.1 ≠ k) m.

(** [Array.from(m.values())]. *)
Definition values {V} (m : t V) : list V := m.*2.

(** The effect, seen through the map, of mutating in place the object
    stored under [k]. *)
Fixpoint mutate {V} (f : V → V) (k : val) (m : t V) : t V :=
  match m with
  | [] => []
  | (k', v) :: m' =>
      if decide (k' = k) then (k', f v) :: m' else (k', v) :: mutate f k m'
  end.

End JSMap.

(** ** Code with effects: a state, and a completion *)

Module Eff.

(** A piece of code running on a mutable state [S]: it leaves a state
    behind and either returns or throws. *)
Definition M (S A : Type) : Type := S → S * completion A.

Section Ops.
Context {S : Type}.

Definition ret {A} (a : A) : M S A := λ st, (st, Normal a).

Definition throw {A} (message : string) : M S A :=
  λ st, (st, Throw message).

Definition bind {A B} (m : M S A) (k : A → M S B) : M S B :=
  λ st, match m st with
        | (st', Normal a) => k a st'
        | (st', Throw e) => (st', Throw e)
        end.

(** [try { body } catch (error) { handler }]: what the body did to
    the state before it threw stays done. *)
Definition try_catch {A} (body : M S A) (handler : string → M S A)
    : M S A :=
  λ st, match body st with
        | (st', Normal a) => (st', Normal a)
        | (st', Throw e) => handler e st'
        end.

Definition gets {A} (f : S → A) : M S A := λ st, (st, Normal (f st)).

Definition modify (f : S → S) : M S unit := λ st, (f st, Normal tt).

(** A pure computation that may throw. *)
Definition lift {A} (c : completion A) : M S A := λ st, (st, c).

(** [if (c) { m }]. *)
Definition when_ (c : bool) (m : M S unit) : M S unit :=
  if c then m else ret tt.

(** [for (let i = start; i < bound; i += step) { body(i) }].  The loop
    gives [None] when [fuel] iterations were not enough to leave it. *)
Fixpoint for_loop (fuel : nat) (i bound step : Z)
    (body : Z → M S unit) : M S (option unit) :=
  if i <? bound then
    match fuel with
    | O => ret None
    | Datatypes.S fuel' =>
        bind (body i) (λ _, for_loop fuel' (i + step) bound step body)
    end
  else ret (Some tt).

(** [xs.forEach((x, index) => body(x, index))], from [index] on. *)
Fixpoint forEach_from {A} (index : nat) (xs : list A)
    (body : A → nat → M S unit) : M S unit :=
  match xs with
  | [] => ret tt
  | x :: xs' =>
      bind (body x index) (λ _, forEach_from (Datatypes.S index) xs' body)
  end.

Definition forEach {A} (xs : list A) (body : A → nat → M S unit)
    : M S unit :=
  forEach_from 0 xs body.

(** [xs.map(f)] for a callback with effects, and [await
    Promise.all(xs.map(async f))] when the callbacks are started in
    order and cannot reject. *)
Fixpoint map_M {A B} (f : A → M S B) (xs : list A) : M S (list B) :=
  match xs with
  | [] => ret []
  | x :: xs' =>
      bind (f x) (λ y, bind (map_M f xs') (λ ys, ret (y :: ys)))
  end.

(** [for (const x of xs) { body(x) }]. *)
Fixpoint for_of {A} (xs : list A) (body : A → M S unit) : M S unit :=
  match xs with
  | [] => ret tt
  | x :: xs' => bind (body x) (λ _, for_of xs' body)
  end.

End Ops.

Module Notations.
Notation "'let*' x ':=' m 'in' k" := (bind m (λ x, k))
  (at level 10, x name, m at level 100, k at level 200).
Notation "'do*' m 'in' k" := (bind m (λ _, k))
  (at level 10, m at level 100, k at level 200).
End Notations.

End Eff.
Import Eff Eff.Notations.

(** ** The product store ([ProductDatabase]) *)

Module ProductDatabase.

(** [this.products] and the document at [this.dbPath] ([None]: the file
    was never written). *)
Record db := {
  products : JSMap.t obj;
  document : option (list obj);
}.

(** Methods run on the store and either return or throw. *)
Abbreviation M := (Eff.M db).

Definition set_products (f : JSMap.t obj → JSMap.t obj) (st : db) : db :=
  {| products := f (products st); document := document st |}.

(** [saveDatabase()].  [write_ok] is whether [fs.writeFileSync]
    succeeds; its failure is rethrown as a new error. *)
Definition saveDatabase (write_ok : bool) : M unit :=
  try_catch
    (if write_ok
     then modify (λ st, {| products := products st;
                           document := Some (JSMap.values (products st)) |})
     else throw "EACCES: permission denied")
    (λ error, throw "Failed to save product database").

(** [!product.id || !product.name || !product.type]. *)
Definition missing_required (product : obj) : bool :=
  negb (truthy (field product "id"))
  || negb (truthy (field product "name"))
  || negb (truthy (field product "type")).

(** [addProduct(product)].  [created] and [updated] are the two readings
    of the clock.  The argument object itself is what gets stamped and
    stored. *)
Definition addProduct (created updated : string) (write_ok : bool)
    (product : obj) : M bool :=
  try_catch
    (do* when_ (missing_required product)
           (throw "Product must have id, name, and type") in
     let* present :=
       gets (λ st, JSMap.has (field product "id") (products st)) in
     do* when_ present
           (throw ("Product with ID " +:+ to_string (field product "id")
                   +:+ " already exists")) in
     let product := <["createdAt" := VStr created]> product in
     let product := <["updatedAt" := VStr updated]> product in
     let product :=
       <["status" := or_else (field product "status") (VStr "active")]>
         product in
     do* modify (set_products (JSMap.set (field product "id") product)) in
     do* saveDatabase write_ok in
     ret true)
    (λ error, ret false).

(** [getProduct(id)]; [None] is [null]. *)
Definition getProduct (id : val) (st : db) : option obj :=
  JSMap.get id (products st).

(** The [filters] argument of [getProducts]; an absent key reads as
    [VUndef]. *)
Record filters := {
  f_type : val;
  f_status : val;
  f_active : val;
  f_search : val;
}.

(** [xs.filter(pred)] for a predicate that may throw. *)
Fixpoint filter_throwing {A} (pred : A → completion bool) (xs : list A)
    : completion (list A) :=
  match xs with
  | [] => Normal []
  | x :: xs' =>
      match pred x with
      | Throw e => Throw e
      | Normal b =>
          match filter_throwing pred xs' with
          | Throw e => Throw e
          | Normal ys => Normal (if b then x :: ys else ys)
          end
      end
  end.

Section Listing.

Context `{Builtins}.

(** The callback of the free-text filter. *)
Definition matches_search (searchTerm : string) (p : obj)
    : completion bool :=
  match call_toLowerCase (field p "name") with
  | Throw e => Throw e
  | Normal name =>
      if includes name searchTerm then Normal true
      else match call_toLowerCase (field p "description") with
           | Throw e => Throw e
           | Normal description => Normal (includes description searchTerm)
           end
  end.

(** [getProducts(filters)]. *)
Definition getProducts (f : filters) (st : db) : completion (list obj) :=
  let products := JSMap.values (products st) in
  let products :=
    if truthy (f_type f)
    then filter (λ p, field p "type" = f_type f) products
    else products in
  let products :=
    if truthy (f_status f)
    then filter (λ p, field p "status" = f_status f) products
    else products in
  let products :=
    if bool_decide (f_active f ≠ VUndef)
    then filter (λ p, field p "status" = VStr "active") products
    else products in
  if truthy (f_search f)
  then match call_toLowerCase (f_search f) with
       | Throw e => Throw e
       | Normal searchTerm =>
           filter_throwing (matches_search searchTerm) products
       end
  else Normal products.

End Listing.

(** [updateProduct(id, updates)]. *)
Definition updateProduct (updated : string) (write_ok : bool)
    (id : val) (updates : obj) : M bool :=
  try_catch
    (let* product := gets (λ st, JSMap.get id (products st)) in
     match product with
     | None =>
         throw ("Product with ID " +:+ to_string id +:+ " not found")
     | Some _ =>
         do* modify (set_products (JSMap.mutate
               (λ product, <["updatedAt" := VStr updated]>
                             (assign product updates)) id)) in
         do* saveDatabase write_ok in
         ret true
     end)
    (λ error, ret false).

(** [deleteProduct(id, hardDelete)].  [deleted] and [updated] are the
    two readings of the clock of the soft branch. *)
Definition deleteProduct (deleted updated : string) (write_ok : bool)
    (id : val) (hardDelete : bool) : M bool :=
  try_catch
    (let* product := gets (λ st, JSMap.get id (products st)) in
     match product with
     | None =>
         throw ("Product with ID " +:+ to_string id +:+ " not found")
     | Some _ =>
         do* (if hardDelete
              then modify (set_products (JSMap.delete id))
              else modify (set_products (JSMap.mutate
                     (λ product,
                        <["updatedAt" := VStr updated]>
                          (<["deletedAt" := VStr deleted]>
                             (<["status" := VStr "inactive"]> product)))
                     id))) in
         do* saveDatabase write_ok in
         ret true
     end)
    (λ error, ret false).

(** [loadDatabase()].  When the file is there, it is read back as the
    array that was written ([JSON.parse] undoing [JSON.stringify] on
    the records), unless [read_ok] is off: then [fs.readFileSync] or
    [JSON.parse] throws.  When the file is not there, it is created. *)
Definition loadDatabase (read_ok write_ok : bool) : M unit :=
  try_catch
    (let* file := gets document in
     match file with
     | Some written =>
         let* products :=
           (if read_ok then ret written
            else throw "Unexpected end of JSON input") in
         forEach products (λ product _,
           modify (set_products (JSMap.set (field product "id") product)))
     | None => saveDatabase write_ok
     end)
    (λ error, throw "Failed to load product database").

(** [new ProductDatabase(dbPath)], with what is found at [dbPath]. *)
Definition new_ProductDatabase (file : option (list obj))
    (read_ok write_ok : bool) : db * completion unit :=
  loadDatabase read_ok write_ok {| products := []; document := file |}.

End ProductDatabase.

(** ** The email preview cache ([server.js]) *)

Module PreviewCache.

Section Cache.

(** The type of the generated email objects kept in the cache. *)
Context {E : Type}.

Record entry := { email : E; timestamp : Z }.

(** [emailPreviewCache]: a [Map] keyed by strings, never iterated. *)
Abbreviation cache := (gmap string entry).

Definition getCacheKey (customerId productId : val) : string :=
  to_string customerId +:+ "-" +:+ to_string productId.

(** [getCachedEmail(customerId, productId)]; [now] is [Date.now()],
    [None] is [null]. *)
Definition getCachedEmail (now : Z) (customerId productId : val)
    (emailPreviewCache : cache) : option E :=
  let key := getCacheKey customerId productId in
  match emailPreviewCache !! key with
  | Some cached =>
      if now - timestamp cached <? 60 * 60 * 1000
      then Some (email cached)
      else None
  | None => None
  end.

(** [setCachedEmail(customerId, productId, email)]. *)
Definition setCachedEmail (now : Z) (customerId productId : val)
    (e : E) (emailPreviewCache : cache) : cache :=
  let key := getCacheKey customerId productId in
  <[key := {| email := e; timestamp := now |}]> emailPreviewCache.

End Cache.

Arguments entry : clear implicits.

End PreviewCache.

(** ** The matcher and the bulk email dispatcher
       ([IntelligentProductMatcher]) *)

Module Matcher.

(** Customers are objects, as the methods document their arguments
    ([@param {Array} customers - Array of customer objects]); so are
    the products of the catalog. *)
Abbreviation customer := obj.

(** *** The data passed around *)

(** The recommendation parsed from the model's reply; a nested object
    that is missing is [None]. *)
Record recommendedProduct := {
  productId : val;
  productName : val;
  matchReason : val;
  confidenceScore : val;
}.

Record personalizationInsights := {
  primaryBenefit : val;
  (** [None]: not an array *)
  secondaryBenefits : option (list val);
}.

Record offerCustomization := { specialOffer : val }.

Record recommendation := {
  rec_recommendedProduct : option recommendedProduct;
  rec_personalizationInsights : option personalizationInsights;
  rec_offerCustomization : option offerCustomization;
  rec_emailSubject : val;
}.

Record Match := {
  m_customer : customer;
  m_success : bool;
  m_error : val;
  m_recommendation : option recommendation;
  m_matchedAt : val;
}.

Record personalizedProduct := {
  pp_id : val;
  pp_name : val;
  pp_details : string;
  pp_expiryDate : string;
  pp_offerCode : string;
  pp_campaign : string;
}.

(** The two shapes of object pushed by [generatePersonalizedEmails]:
    [success: true] with the content, [success: false] with the error. *)
Inductive email :=
| GeneratedEmail (customer : customer) (match_ : Match) (subject : val)
    (content : string) (product : personalizedProduct)
    (nudgingTechniques : val) (nudgeOptimized fallbackMode : bool)
| FailedEmail (customer : customer) (error : val).

Definition e_customer (e : email) : customer :=
  match e with
  | GeneratedEmail c _ _ _ _ _ _ _ => c
  | FailedEmail c _ => c
  end.

Definition e_success (e : email) : bool :=
  match e with
  | GeneratedEmail _ _ _ _ _ _ _ _ => true
  | FailedEmail _ _ => false
  end.

Definition e_error (e : email) : val :=
  match e with
  | GeneratedEmail _ _ _ _ _ _ _ _ => VUndef
  | FailedEmail _ err => err
  end.

Definition e_match (e : email) : option Match :=
  match e with
  | GeneratedEmail _ m _ _ _ _ _ _ => Some m
  | FailedEmail _ _ => None
  end.

(** What is handed to the mail service for one message. *)
Record payload := {
  p_from : string;
  p_to : list val;
  p_subject : val;
  p_html : string;
  p_x_customer_id : val;
  p_x_product_id : val;
  p_x_campaign : string;
  p_x_offer_code : string;
}.

(** One entry of the batch reply. *)
Record email_result := {
  er_id : val;
  er_error : val;
  er_message : val;
}.

(** The resolved value of [batch.send], by the three cases the code
    tells apart. *)
Inductive batch_response :=
| BatchData (data : list (option email_result))
| BatchError (message : string)
| BatchOther (type_ : string).
(* [BatchData]: [batchResult.data.data] is an array, of which a [null]
   entry is [None]; [BatchError]: otherwise [batchResult.error] is
   there, with [error.message || JSON.stringify(error)] as message;
   [BatchOther]: anything else, with [typeof batchResult]. *)

(** The resolved value of [emails.send]: [result?.data?.id] and
    [result?.id]. *)
Record send_response := {
  sr_data_id : val;
  sr_id : val;
}.

(** The two shapes of send result. *)
Inductive result :=
| Sent (customer : customer) (emailId : val) (sentAt : string)
    (subject : val) (productMatched : val)
    (resendResponse : option send_response)
| NotSent (customer : customer) (error : val)
    (errorDetails : option string).

Definition r_customer (r : result) : customer :=
  match r with
  | Sent c _ _ _ _ _ => c
  | NotSent c _ _ => c
  end.

Definition r_success (r : result) : bool :=
  match r with
  | Sent _ _ _ _ _ _ => true
  | NotSent _ _ _ => false
  end.

Definition r_error (r : result) : val :=
  match r with
  | Sent _ _ _ _ _ _ => VUndef
  | NotSent _ err _ => err
  end.

(** The parsed reply of the nudge generation. *)
Record nudgeEmail := {
  n_subject : val;
  n_htmlContent : string;
  n_plainTextContent : val;
  n_nudgingTechniques : val;
  n_personalizations : val;
}.

Record emailData := {
  ed_subject : val;
  ed_plainTextContent : val;
  ed_nudgingTechniques : val;
  ed_personalizations : val;
}.

(** *** The outside world *)

(** Calls that leave the process, in the order they are issued, each
    with the match, email or customer it is made for and with what came
    back. *)
Inductive event :=
| EvMatchCall (c : customer) (prompt : string) (reply : completion val)
| EvNudgeCall (m : Match) (prompt : string) (reply : completion val)
| EvTemplateCall (m : Match) (product : personalizedProduct)
    (reply : completion string)
| EvBatchSend (batch : list email) (payloads : list payload)
    (reply : completion batch_response)
| EvSend (e : email) (p : payload) (reply : completion send_response)
| EvProgress (type_ : string) (batchNumber : Z) (batchResults : list result)
| EvSleep (ms : Z).

(** The collaborators, as transitions of an arbitrary world [W]. *)
Record services (W : Type) := {
  (** [openaiClient.chat.completions.create], up to the content of the
      first choice *)
  chat_completion : string → W → W * completion val;
  (** [emailEngine.generateEmail] *)
  generateEmail : customer → personalizedProduct → W → W * completion string;
  (** [resendClient.batch.send] *)
  batch_send : list payload → W → W * completion batch_response;
  (** [resendClient.emails.send] *)
  emails_send : payload → W → W * completion send_response;
  (** [Date.now()] and [new Date()] *)
  date_now : W → W * Z;
  (** a timer of the given delay running out *)
  sleep : Z → W → W;
}.
Arguments chat_completion {W}.
Arguments generateEmail {W}.
Arguments batch_send {W}.
Arguments emails_send {W}.
Arguments date_now {W}.
Arguments sleep {W}.

(** Text-level helpers whose result is only ever copied into a prompt, a
    message body or a time stamp; they are left abstract.  Those that
    can throw return a completion. *)
Class Texts := {
  (** [buildMatchingPrompt] *)
  buildMatchingPrompt : customer → list obj → string;
  (** [JSON.parse] of a matching reply; [None] is [null] *)
  parseRecommendation : val → completion (option recommendation);
  (** the prompt of [generateNudgeOptimizedEmail], as far as the
      property reads of its first lines succeed *)
  buildNudgePrompt : Match → completion string;
  (** the reply of the nudge call checked, parsed and validated *)
  parseNudgeReply : val → completion emailData;
  (** the page built by [convertPlainTextToHtml] from the escaped text
      and the offer code *)
  renderHtml : string → string → customer → recommendedProduct → string;
  (** [toISOString] of a date *)
  toISOString : Z → string;
  (** the date thirty days on, in the long US format *)
  formatExpiry : Z → string;
}.

(** The world and the log of calls. *)
Record env (W : Type) := {
  world : W;
  trace : list event;
}.
Arguments world {W}.
Arguments trace {W}.

(** A method at work: the outside, and the array it is filling. *)
Record frame (W L : Type) := {
  outside : env W;
  array : list L;
}.
Arguments outside {W L}.
Arguments array {W L}.

(** *** The methods *)

Section Methods.

Context {W : Type} (svc : services W) `{Texts}.

Abbreviation M L := (Eff.M (frame W L)).

(** A call to a collaborator: the world moves on, the call is logged
    with its outcome. *)
Definition call {L A} (ev : completion A → event)
    (f : W → W * completion A) : M L A :=
  λ st,
    let '(w', c) := f (world (outside st)) in
    ({| outside := {| world := w';
                      trace := trace (outside st) ++ [ev c] |};
        array := array st |}, c).


(** Reading the clock. *)
Definition now {L} : M L Z :=
  λ st,
    let '(w', t) := date_now svc (world (outside st)) in
    ({| outside := {| world := w'; trace := trace (outside st) |};
        array := array st |}, Normal t).

(** [await new Promise(resolve => setTimeout(resolve, ms))]. *)
Definition wait {L} (ms : Z) : M L unit :=
  λ st,
    ({| outside := {| world := sleep svc ms (world (outside st));
                      trace := trace (outside st) ++ [EvSleep ms] |};
        array := array st |}, Normal tt).

(** [array.push(x)] on the array of the method. *)
Definition push {L} (x : L) : M L unit :=
  modify (λ st, {| outside := outside st; array := array st ++ [x] |}).

(** A method from its call to its [return]: it starts with an empty
    array. *)
Definition method {L A} (body : M L A) (e : env W)
    : env W * completion A :=
  let '(st, c) := body {| outside := e; array := [] |} in
  (outside st, c).

(** [matchSingleCustomer(customer, products)]. *)
Definition matchSingleCustomer {L} (customer : customer)
    (products : list obj) : M L Match :=
  let prompt := buildMatchingPrompt customer products in
  try_catch
    (let* content :=
       call (EvMatchCall customer prompt) (chat_completion svc prompt) in
     let* matchResult := lift (parseRecommendation content) in
     let* matchedAt := now in
     ret {| m_customer := customer;
            m_success := true;
            m_error := VUndef;
            m_recommendation := matchResult;
            m_matchedAt := VStr (toISOString matchedAt) |})
    (λ error, throw ("AI matching failed: " +:+ error)).

(** [matchCustomersToProducts(customers, products)]. *)
Definition matchCustomersToProducts (customers : list customer)
    (products : list obj) : env W → env W * completion (list Match) :=
  method
    (do* for_of customers (λ customer,
       try_catch
         (let* match_ := matchSingleCustomer customer products in
          do* push match_ in
          wait 1000)
         (λ error,
            push {| m_customer := customer;
                    m_success := false;
                    m_error := VStr error;
                    m_recommendation := None;
                    m_matchedAt := VUndef |})) in
     gets array).

(** [match.recommendation], which has to be there for its properties
    to be read. *)
Definition recommendation_of (m : Match) : completion recommendation :=
  match m_recommendation m with
  | Some r => Normal r
  | None =>
      Throw "Cannot read properties of undefined (reading 'recommendedProduct')"
  end.

(** [match.recommendation.recommendedProduct], of which a property is
    then read. *)
Definition recommended_of (m : Match) : completion recommendedProduct :=
  match recommendation_of m with
  | Throw e => Throw e
  | Normal r =>
      match rec_recommendedProduct r with
      | Some rp => Normal rp
      | None =>
          Throw "Cannot read properties of undefined (reading 'productName')"
      end
  end.

(** [generateOfferCode(customer)]. *)
Definition generateOfferCode {L} (customer : customer) : M L string :=
  match field customer "first_name", field customer "last_name" with
  | VStr first_name, VStr last_name =>
      let initials := charAt0 first_name +:+ charAt0 last_name in
      let* t := now in
      let timestamp := last_chars 6 (pretty t) in
      ret ("CB" +:+ initials +:+ timestamp)
  | _, _ => throw "Cannot read properties of undefined (reading 'charAt')"
  end.

(** [generateOfferExpiry()]. *)
Definition generateOfferExpiry {L} : M L string :=
  let* t := now in ret (formatExpiry t).

(** [buildPersonalizedProductDetails(match)]. *)
Definition buildPersonalizedProductDetails (m : Match)
    : completion string :=
  match recommendation_of m with
  | Throw e => Throw e
  | Normal recommendation =>
      let customer := m_customer m in
      let details :=
        "Dear " +:+ to_string (field customer "first_name") +:+ ","
        +:+ nl +:+ nl in
      match rec_recommendedProduct recommendation with
      | None =>
          Throw "Cannot read properties of undefined (reading 'productName')"
      | Some rp =>
          let details := details
            +:+ "Based on your profile, we've identified the perfect financial solution for you: "
            +:+ to_string (productName rp) +:+ "." +:+ nl +:+ nl in
          let details := details
            +:+ to_string (matchReason rp) +:+ nl +:+ nl in
          let details := details
            +:+ "Here's what makes this offer special for you:" +:+ nl in
          match rec_personalizationInsights recommendation with
          | None =>
              Throw "Cannot read properties of undefined (reading 'primaryBenefit')"
          | Some insights =>
              let details := details
                +:+ "• " +:+ to_string (primaryBenefit insights) +:+ nl in
              match secondaryBenefits insights with
              | None => Throw "secondaryBenefits.forEach is not a function"
              | Some benefits =>
                  let details :=
                    foldl (λ details benefit,
                             details +:+ "• " +:+ to_string benefit +:+ nl)
                          details benefits in
                  match rec_offerCustomization recommendation with
                  | None =>
                      Throw "Cannot read properties of undefined (reading 'specialOffer')"
                  | Some offer =>
                      let details :=
                        if truthy (specialOffer offer)
                        then details +:+ nl +:+ "Exclusive Offer: "
                             +:+ to_string (specialOffer offer) +:+ nl
                        else details in
                      Normal (details +:+ nl
                        +:+ "This recommendation is based on our analysis of your profile and current financial products market. We believe this product aligns perfectly with your financial goals and current life stage.")
                  end
              end
          end
      end
  end.

(** [convertPlainTextToHtml(plainText, customer, product)]. *)
Definition convertPlainTextToHtml {L} (plainText : val)
    (customer : customer) (product : recommendedProduct) : M L string :=
  let* offerCode := generateOfferCode customer in
  match plainText with
  | VStr text => ret (renderHtml text offerCode customer product)
  | _ => throw "plainText.replace is not a function"
  end.

(** [generateNudgeOptimizedEmail(match)]. *)
Definition generateNudgeOptimizedEmail {L} (m : Match) : M L nudgeEmail :=
  let customer := m_customer m in
  let* product := lift (recommended_of m) in
  let* prompt := lift (buildNudgePrompt m) in
  try_catch
    (let* response :=
       call (EvNudgeCall m prompt) (chat_completion svc prompt) in
     let* emailData := lift (parseNudgeReply response) in
     let* htmlContent :=
       convertPlainTextToHtml (ed_plainTextContent emailData)
         customer product in
     ret {| n_subject := ed_subject emailData;
            n_htmlContent := htmlContent;
            n_plainTextContent := ed_plainTextContent emailData;
            n_nudgingTechniques := ed_nudgingTechniques emailData;
            n_personalizations := ed_personalizations emailData |})
    (λ error,
       throw ("Failed to generate nudge-optimized email: " +:+ error)).

(** The "personalized product object" built, twice in the same way,
    by [generatePersonalizedEmails]. *)
Definition personalize {L} (m : Match) : M L personalizedProduct :=
  let* rp := lift (recommended_of m) in
  let productId := productId rp in
  let* details := lift (buildPersonalizedProductDetails m) in
  let* expiryDate := generateOfferExpiry in
  let* offerCode := generateOfferCode (m_customer m) in
  ret {| pp_id := productId;
         pp_name := productName rp;
         pp_details := details;
         pp_expiryDate := expiryDate;
         pp_offerCode := offerCode;
         pp_campaign := "ai_matched_offers_2025" |}.

(** The body of the loop of [generatePersonalizedEmails]. *)
Definition generate_step (m : Match) : M email unit :=
  if negb (m_success m)
  then push (FailedEmail (m_customer m) (m_error m))
  else
    try_catch
      (let* nudgeEmail := generateNudgeOptimizedEmail m in
       let* personalizedProduct := personalize m in
       push (GeneratedEmail (m_customer m) m (n_subject nudgeEmail)
               (n_htmlContent nudgeEmail) personalizedProduct
               (n_nudgingTechniques nudgeEmail) true false))
      (λ error,
         try_catch
           (let* personalizedProduct := personalize m in
            let* emailContent :=
              call (EvTemplateCall m personalizedProduct)
                (generateEmail svc (m_customer m) personalizedProduct) in
            let* recommendation := lift (recommendation_of m) in
            push (GeneratedEmail (m_customer m) m
                    (rec_emailSubject recommendation) emailContent
                    personalizedProduct VUndef false true))
           (λ fallbackError,
              push (FailedEmail (m_customer m) (VStr fallbackError)))).

(** [generatePersonalizedEmails(matches, emailEngine)]. *)
Definition generatePersonalizedEmails (matches : list Match)
    : env W → env W * completion (list email) :=
  method (do* for_of matches generate_step in gets array).

(** The [options] of [sendEmails]; [batchSize] is [None] when the
    property is not there. *)
Record send_options := {
  fromName : val;
  batchSize : option Z;
}.

(** [options.batchSize || 100]. *)
Definition batchSize_or_default (options : send_options) : Z :=
  match batchSize options with
  | Some n => if n =? 0 then 100 else n
  | None => 100
  end.

Definition e_subject (e : email) : val :=
  match e with
  | GeneratedEmail _ _ subject _ _ _ _ _ => subject
  | FailedEmail _ _ => VUndef
  end.

(** [email.match.recommendation.recommendedProduct.productName]. *)
Definition productMatched_of (e : email) : completion val :=
  match e_match e with
  | None =>
      Throw "Cannot read properties of undefined (reading 'recommendation')"
  | Some m =>
      match recommended_of m with
      | Throw err => Throw err
      | Normal rp => Normal (productName rp)
      end
  end.

(** The message submitted for one email, with the given sender and
    recipient. *)
Definition make_payload (from : string) (to : val) (e : email)
    : completion payload :=
  match e with
  | GeneratedEmail customer _ subject content product _ _ _ =>
      Normal {| p_from := from;
                p_to := [to];
                p_subject := subject;
                p_html := content;
                p_x_customer_id :=
                  or_else (field customer "id") (VStr "unknown");
                p_x_product_id := pp_id product;
                p_x_campaign := pp_campaign product;
                p_x_offer_code := pp_offerCode product |}
  | FailedEmail _ _ =>
      Throw "Cannot read properties of undefined (reading 'id')"
  end.

(** [xs.map(f)] for a pure callback that may throw. *)
Fixpoint map_throwing {A B} (f : A → completion B) (xs : list A)
    : completion (list B) :=
  match xs with
  | [] => Normal []
  | x :: xs' =>
      match f x with
      | Throw e => Throw e
      | Normal y =>
          match map_throwing f xs' with
          | Throw e => Throw e
          | Normal ys => Normal (y :: ys)
          end
      end
  end.

(** [emailResult && emailResult.id]. *)
Definition has_id (emailResult : option email_result) : bool :=
  match emailResult with
  | Some er => truthy (er_id er)
  | None => false
  end.

(** [emailResult?.error || emailResult?.message ||
    'Unknown batch send error']. *)
Definition errorMsg_of (emailResult : option email_result) : val :=
  match emailResult with
  | Some er =>
      or_else (or_else (er_error er) (er_message er))
        (VStr "Unknown batch send error")
  | None => VStr "Unknown batch send error"
  end.

(** The callback run on each entry of the batch reply. *)
Definition process_entry (batch : list email)
    (emailResult : option email_result) (index : nat) : M result unit :=
  match batch !! index with
  | None => throw "Cannot read properties of undefined (reading 'customer')"
  | Some email =>
      if has_id emailResult
      then
        let emailId :=
          match emailResult with Some er => er_id er | None => VUndef end in
        let* sentAt := now in
        let* productMatched := lift (productMatched_of email) in
        push (Sent (e_customer email) emailId (toISOString sentAt)
                (e_subject email) productMatched None)
      else
        push (NotSent (e_customer email) (errorMsg_of emailResult) None)
  end.

(** One turn of the loop of [sendEmails], for the batch that starts
    at index [i]. *)
Definition send_batch (from : string) (batchSize : Z)
    (validEmails : list email) (i : Z) : M result unit :=
  let batch := slice validEmails i (i + batchSize) in
  try_catch
    (let* batchPayload :=
       lift (map_throwing
               (λ email,
                  make_payload from (field (e_customer email) "email")
                    email)
               batch) in
     let* batchResult :=
       call (EvBatchSend batch batchPayload)
         (batch_send svc batchPayload) in
     do* match batchResult with
         | BatchData data => forEach data (process_entry batch)
         | BatchError message => throw ("Resend API error: " +:+ message)
         | BatchOther type_ =>
             throw ("Invalid batch response format from Resend API. Expected {data: {data: Array}}, got: "
                    +:+ type_)
         end in
     when_ (i + batchSize <? Z.of_nat (length validEmails)) (wait 1000))
    (λ error,
       forEach batch (λ email index,
         push (NotSent (e_customer email)
                 (VStr ("Batch send failed: " +:+ error)) None))).

(** [sendEmails(emails, options)].  The result is [None] when the
    loop over the batches was still running after [fuel] turns. *)
Definition sendEmails (fuel : nat) (emails : list email)
    (options : send_options)
    : env W → env W * completion (option (list result)) :=
  method
    (let fromName := or_else (fromName options) (VStr "🏦 Customer Bank") in
     let fromEmail := "no-reply@customerbank.com" in
     let batchSize := batchSize_or_default options in
     let validEmails := filter (λ email, e_success email = true) emails in
     let failedEmails := filter (λ email, e_success email ≠ true) emails in
     do* forEach failedEmails (λ email _,
           push (NotSent (e_customer email)
                   (or_else (e_error email)
                      (VStr "Email generation failed")) None)) in
     if (length validEmails =? 0)%nat
     then let* results := gets array in ret (Some results)
     else
       let from := to_string fromName +:+ " <" +:+ fromEmail +:+ ">" in
       let* finished :=
         for_loop fuel 0 (Z.of_nat (length validEmails)) batchSize
           (send_batch from batchSize validEmails) in
       match finished with
       | None => ret None
       | Some _ => let* results := gets array in ret (Some results)
       end).

(** The dispatch run: generation, then sending. *)
Definition dispatch (fuel : nat) (matches : list Match)
    (options : send_options)
    : env W → env W * completion (option (list result)) :=
  λ e,
    match generatePersonalizedEmails matches e with
    | (e', Normal emails) => sendEmails fuel emails options e'
    | (e', Throw err) => (e', Throw err)
    end.






End Methods.

End Matcher.

(** ** The progress variant ([POST /api/ai/send-emails-with-progress]) *)

Module Server.

Import Matcher.

Section Handler.

Context {W : Type} (svc : services W) `{Texts} `{Builtins}.

Abbreviation M L := (Eff.M (frame W L)).


(** The address a message goes to. *)
Definition customerEmail_of (customer : customer) : completion val :=
  if truthy (field customer "email")
  then Normal (field customer "email")
  else
    match call_toLowerCase (field customer "first_name") with
    | Throw e => Throw e
    | Normal first_name =>
        match call_toLowerCase (field customer "last_name") with
        | Throw e => Throw e
        | Normal last_name =>
            Normal
              (VStr (first_name +:+ "." +:+ last_name +:+ "@example.com"))
        end
    end.

(** The asynchronous callback mapped over a batch: one send, and its
    outcome as a result object.  The callbacks of a batch are started
    in the order of the batch and [Promise.all] gives their results
    in that order; each takes the reply to its own send, so that the
    replies are here taken one after the other, whichever came first
    in time. *)
Definition send_one (email : email) : M result result :=
  try_catch
    (let* customerEmail := lift (customerEmail_of (e_customer email)) in
     let* message :=
       lift (make_payload
               "Customer Bank Offers <no-reply@noreply.kidsched.com>"
               customerEmail email) in
     let* result := call (EvSend email message)
                      (emails_send svc message) in
     let* sentAt := now svc in
     let* productMatched := lift (productMatched_of email) in
     ret (Sent (e_customer email)
            (or_else (or_else (sr_data_id result) (sr_id result))
               (VStr "unknown"))
            (toISOString sentAt) (e_subject email) productMatched
            (Some result)))
    (λ error, ret (NotSent (e_customer email) (VStr error) (Some error))).



(** *** The sending endpoints *)






(** *** The preview endpoint and its cache *)

(** The server between two requests: the outside and
    [emailPreviewCache]. *)
Record app := {
  a_outside : env W;
  emailPreviewCache : gmap string (PreviewCache.entry email);
}.

(** A call to the matcher from a handler. *)
Definition on_outside {A} (m : env W → env W * completion A)
    : Eff.M app A :=
  λ st,
    let '(e', c) := m (a_outside st) in
    ({| a_outside := e'; emailPreviewCache := emailPreviewCache st |}, c).

(** [Date.now()] from a handler. *)
Definition clock : Eff.M app Z :=
  λ st,
    let '(w', t) := date_now svc (world (a_outside st)) in
    ({| a_outside := {| world := w'; trace := trace (a_outside st) |};
        emailPreviewCache := emailPreviewCache st |}, Normal t).

(** [getCachedEmail(customerId, productId)] on the cache of the
    server: the clock is read only when the key is there. *)
Definition cachedEmail (customerId productId : val)
    : Eff.M app (option email) :=
  let* cache := gets emailPreviewCache in
  match cache !! PreviewCache.getCacheKey customerId productId with
  | None => ret None
  | Some _ =>
      let* t := clock in
      ret (PreviewCache.getCachedEmail t customerId productId cache)
  end.

(** [setCachedEmail(customerId, productId, email)] on the cache of
    the server. *)
Definition cacheEmail (customerId productId : val) (e : email)
    : Eff.M app unit :=
  let* t := clock in
  modify (λ st,
    {| a_outside := a_outside st;
       emailPreviewCache :=
         PreviewCache.setCachedEmail t customerId productId e
           (emailPreviewCache st) |}).

(** What the preview endpoint answers. *)
Inductive preview_reply :=
| Preview (email : email) (cached : bool)
| PreviewRefused (status : Z) (error : string).

(** The handler of [POST /api/ai/preview-email].  The [match] of the
    request body is [None] when it is missing. *)
Definition previewEmail (match_ : option Match)
    : Eff.M app preview_reply :=
  try_catch
    (match match_ with
     | None =>
         ret (PreviewRefused 400
                "Valid match object with customer and recommendation is required")
     | Some m =>
         match m_recommendation m with
         | None =>
             ret (PreviewRefused 400
                    "Valid match object with customer and recommendation is required")
         | Some recommendation =>
             let customer := m_customer m in
             let* recommended :=
               lift (match rec_recommendedProduct recommendation with
                     | Some rp => Normal rp
                     | None =>
                         Throw "Cannot read properties of undefined (reading 'productId')"
                     end) in
             let productId :=
               or_else (productId recommended)
                 (productName recommended) in
             let customerId :=
               or_else (field customer "id") (field customer "email") in
             let* cached := cachedEmail customerId productId in
             match cached with
             | Some email => ret (Preview email true)
             | None =>
                 let* emails :=
                   on_outside (generatePersonalizedEmails svc [m]) in
                 match emails with
                 | generatedEmail :: _ =>
                     if e_success generatedEmail
                     then
                       do* cacheEmail customerId productId
                             generatedEmail in
                       ret (Preview generatedEmail false)
                     else ret (PreviewRefused 500
                                 "Failed to generate email content")
                 | [] => ret (PreviewRefused 500
                                "Failed to generate email content")
                 end
             end
         end
     end)
    (λ error, ret (PreviewRefused 500 error)).

End Handler.

(** *** Sessions and the authentication guard *)

(** [req.session], as far as the server writes it. *)
Record session := {
  authenticated : val;
  username : val;
}.

(** The session of a first request. *)
Definition new_session : session :=
  {| authenticated := VUndef; username := VUndef |}.

(** What a guard or a login route does with a request. *)
Inductive verdict :=
| Next
| Redirect (location : string)
| Unauthorized.
(* [Next]: the request goes on to its route; [Unauthorized]: status 401
   with [{success: false, error: 'Authentication required',
   redirectTo: '/login'}]. *)

(** [requireAuth(req, res, next)]. *)
Definition requireAuth (s : session) (path : string) : verdict :=
  if truthy (authenticated s) then Next
  else if String.prefix "/api/" path then Unauthorized
  else Redirect "/login".

(** The paths the middleware lets through without a look at the
    session. *)
Definition skips_authentication (path : string) : bool :=
  String.eqb path "/login"
  || String.prefix "/login" path
  || String.eqb path "/logout"
  || String.eqb path "/offer-accepted"
  || String.prefix "/offer-accepted" path
  || String.prefix "/api/track-offer-acceptance" path
  || String.prefix "/css/" path
  || String.prefix "/js/" path
  || String.prefix "/images/" path.

(** The middleware in front of the protected routes. *)
Definition guard (s : session) (path : string) : verdict :=
  if skips_authentication path then Next else requireAuth s path.

(** [POST /login], with the password drawn when the server started. *)
Definition login (ADMIN_PASSWORD : string) (username_ password_ : val)
    (s : session) : session * verdict :=
  if bool_decide (username_ = VStr "admin")
     && bool_decide (password_ = VStr ADMIN_PASSWORD)
  then ({| authenticated := VBool true; username := username_ |},
        Redirect "/")
  else (s, Redirect "/login?error=1").

(** [POST /logout]; [destroyed] is whether the store let the session
    go. *)
Definition logout (destroyed : bool) (s : session) : session * verdict :=
  (if destroyed then new_session else s, Redirect "/login").

End Server.

(** ** Vocabulary of the statements *)

Module Vocabulary.

Import Matcher.

(** The indices visited by [for (i = start; i < bound; i += step)] in
    [n] turns. *)
Fixpoint turns (n : nat) (i step : Z) : list Z :=
  match n with
  | O => []
  | S n' => i :: turns n' (i + step) step
  end.

(** The state after running the turns of a loop one after the other. *)
Definition run_turns {S} (body : Z → Eff.M S unit) (indices : list Z)
    (st : S) : S :=
  foldl (λ st i, (body i st).1) st indices.

(** The consecutive chunks of [c] elements of a list, the last one
    shorter when [c] does not divide the length: [Math.ceil(N / c)] of
    them. *)
Definition chunks {A} (c : Z) (l : list A) : list (list A) :=
  (λ k, take (Z.to_nat c) (drop (k * Z.to_nat c) l))
    <$> seq 0 (Z.to_nat (ceil_div (Z.of_nat (length l)) c)).

(** [st'] comes after [st]: [xs] was pushed on the array and [evs]
    was added to the log. *)
Definition grows {W L} (st st' : frame W L) (xs : list L)
    (evs : list event) : Prop :=
  array st' = array st ++ xs
  ∧ trace (outside st') = trace (outside st) ++ evs.

(** Code that leaves the array alone and logs only events in [P]. *)
Definition quiet {W L A} (P : event → Prop) (c : Eff.M (frame W L) A)
    : Prop :=
  ∀ st, ∃ evs, grows st (c st).1 [] evs ∧ Forall P evs.

(** The customers a matching call was made for, in the order of the
    calls. *)
Definition customers_asked (t : list event) : list customer :=
  omap (λ ev, match ev with
              | EvMatchCall c _ _ => Some c
              | _ => None
              end) t.

(** The entry pushed for a customer whose matching failed. *)
Definition failed_match (c : customer) (message : string) : Match :=
  {| m_customer := c;
     m_success := false;
     m_error := VStr message;
     m_recommendation := None;
     m_matchedAt := VUndef |}.

(** What one turn of [matchCustomersToProducts] leaves for a customer:
    one call, logged with its reply, and one entry, which is a match
    when the reply was parsed and the failed entry with the message of
    the error otherwise. *)
Definition matched `{Texts} (products : list obj) (c : customer)
    (m : Match) (evs : list event) : Prop :=
  ∃ reply sleeps,
    evs = EvMatchCall c (buildMatchingPrompt c products) reply :: sleeps
    ∧ customers_asked sleeps = []
    ∧ m_customer m = c
    ∧ match reply with
      | Throw message =>
          m = failed_match c ("AI matching failed: " +:+ message)
      | Normal content =>
          match parseRecommendation content with
          | Throw message =>
              m = failed_match c ("AI matching failed: " +:+ message)
          | Normal r => m_success m = true ∧ m_recommendation m = r
          end
      end.

(** A match from which the product object of an email can be built: it
    has a recommended product, and the first and last names of its
    customer are strings. *)
Definition complete_match (m : Match) : Prop :=
  (∃ rp, recommended_of m = Normal rp)
  ∧ ∃ first_name last_name,
      field (m_customer m) "first_name" = VStr first_name
      ∧ field (m_customer m) "last_name" = VStr last_name.

(** A call made to generate the email of the match [m]. *)
Definition generation_call (m : Match) (ev : event) : Prop :=
  (∃ prompt reply, ev = EvNudgeCall m prompt reply)
  ∨ (∃ product reply, ev = EvTemplateCall m product reply).

(** What one turn of [generatePersonalizedEmails] leaves for a match:
    for a failed match no call and the failed entry with the error of
    the match; otherwise calls for that match only and an email that,
    when it is a success, carries the match. *)
Definition generated (m : Match) (e : email) (evs : list event) : Prop :=
  e_customer e = m_customer m
  ∧ if m_success m
    then Forall (generation_call m) evs
         ∧ (e_success e = true → e_match e = Some m ∧ complete_match m)
    else evs = [] ∧ e = FailedEmail (m_customer m) (m_error m).

(** The batches handed to [batch.send], in the order of the calls. *)
Definition batches_sent (t : list event) : list (list email) :=
  omap (λ ev, match ev with
              | EvBatchSend batch _ _ => Some batch
              | _ => None
              end) t.

(** The message of the error caught by the turn of [sendEmails] whose
    call to [batch.send] came back with [reply], if any is thrown
    before the entries are looked at. *)
Definition batch_failure (reply : completion batch_response)
    : option string :=
  match reply with
  | Throw message => Some message
  | Normal (BatchError message) => Some ("Resend API error: " +:+ message)
  | Normal (BatchOther type_) =>
      Some ("Invalid batch response format from Resend API. Expected {data: {data: Array}}, got: "
            +:+ type_)
  | Normal (BatchData _) => None
  end.

(** An email as [generatePersonalizedEmails] pushes it on success: made
    for the customer of its match, which is a complete one. *)
Definition well_generated (e : email) : Prop :=
  ∃ m, e_match e = Some m ∧ e_customer e = m_customer m
       ∧ complete_match m.

(** The result pushed for an email of a batch whose sending failed as a
    whole. *)
Definition failed_result (message : string) (e : email) : result :=
  NotSent (e_customer e) (VStr ("Batch send failed: " +:+ message)) None.

(** The result pushed for an email that was not generated. *)
Definition generation_failure (e : email) : result :=
  NotSent (e_customer e)
    (or_else (e_error e) (VStr "Email generation failed")) None.

(** The result [r] reports the entry of the batch reply for [e]: a
    success exactly when the entry has an id, and otherwise the failure
    with the error of the entry. *)
Definition entry_reported (e : email) (entry : option email_result)
    (r : result) : Prop :=
  r_customer r = e_customer e
  ∧ r_success r = has_id entry
  ∧ (has_id entry = false →
     r = NotSent (e_customer e) (errorMsg_of entry) None).

(** What one turn of the loop of [sendEmails] leaves for a batch: one
    call to [batch.send] with one message per email, possibly a pause,
    and results that are the failure of every email of the batch when
    the call failed as a whole, and the reports of the entries when it
    came back with one entry per email. *)
Definition batch_turn {W} (svc : services W) (batch : list email)
    (xs : list result) (evs : list event) : Prop :=
  ∃ payloads reply sleeps w w',
    evs = EvBatchSend batch payloads reply :: sleeps
    ∧ Forall (λ ev, ∃ ms, ev = EvSleep ms) sleeps
    ∧ batch_send svc payloads w = (w', reply)
    ∧ length payloads = length batch
    ∧ (∀ message, batch_failure reply = Some message →
         xs = failed_result message <$> batch)
    ∧ (∀ data, reply = Normal (BatchData data) →
         length data = length batch → Forall well_generated batch →
         Forall3 entry_reported batch data xs).



(** An email the progress variant is given: one that was generated. *)
Definition sendable (e : email) : Prop :=
  e_success e = true ∧ well_generated e.





(** The pauses taken, in milliseconds, in the order they were taken. *)
Definition pauses (t : list event) : list Z :=
  omap (λ ev, match ev with
              | EvSleep ms => Some ms
              | _ => None
              end) t.

(** The single sends made, in the order of the calls. *)
Definition sends (t : list event) : list email :=
  omap (λ ev, match ev with
              | EvSend e _ _ => Some e
              | _ => None
              end) t.


(** A product passes the filters of [getProducts] other than the
    free-text one: each filter that is there holds of it. *)
Definition passes (f : ProductDatabase.filters) (p : obj) : Prop :=
  (truthy (ProductDatabase.f_type f) = true →
   field p "type" = ProductDatabase.f_type f)
  ∧ (truthy (ProductDatabase.f_status f) = true →
     field p "status" = ProductDatabase.f_status f)
  ∧ (ProductDatabase.f_active f ≠ VUndef →
     field p "status" = VStr "active").

#[global] Instance passes_dec f p : Decision (passes f p).
Proof. unfold passes. apply _. Defined.

(** A product whose name and description are both strings. *)
Definition described (p : obj) : Prop :=
  ∃ name description,
    field p "name" = VStr name ∧ field p "description" = VStr description.

(** The name or the description of a described product has [term] in
    it, letter case apart. *)
Definition mentions `{Builtins} (term : string) (p : obj) : bool :=
  match field p "name", field p "description" with
  | VStr name, VStr description =>
      includes (toLowerCase name) term
      || includes (toLowerCase description) term
  | _, _ => false
  end.

(** Every record of the store is held under its own [id], and no id is
    held twice. *)
Definition well_keyed (m : JSMap.t obj) : Prop :=
  NoDup m.*1 ∧ Forall (λ e, field e.2 "id" = e.1) m.

(** The requests of a browser session, as the routes tell them apart:
    the login form posted, a logout, and any request that goes through
    the guard. *)
Inductive request :=
| PostLogin (username password : val)
| PostLogout (destroyed : bool)
| Through (path : string).

#[global] Instance request_eq_dec : EqDecision request.
Proof. solve_decision. Defined.

(** The session after a request, and what the request met. *)
Definition serve (ADMIN_PASSWORD : string) (s : Server.session)
    (r : request) : Server.session * Server.verdict :=
  match r with
  | PostLogin username password =>
      Server.login ADMIN_PASSWORD username password s
  | PostLogout destroyed => Server.logout destroyed s
  | Through path => (s, Server.guard s path)
  end.

(** The session after a history of requests, from a first visit on. *)
Definition session_after (ADMIN_PASSWORD : string) (history : list request)
    : Server.session :=
  foldl (λ s r, (serve ADMIN_PASSWORD s r).1) Server.new_session history.

End Vocabulary.

(** ** Sample data for running the definitions *)

Module Examples.

Import ProductDatabase.

Definition loan : obj :=
  {[ "id" := VStr "p1"; "name" := VStr "Loan"; "type" := VStr "loan" ]}.

(** A product without a name. *)
Definition nameless : obj :=
  {[ "id" := VStr "p2"; "type" := VStr "loan" ]}.

Definition empty_store : db := {| products := []; document := None |}.

(** A store with one active product. *)
Definition one_store : db :=
  {| products := [(VStr "p1", <["status" := VStr "active"]> loan)];
     document := None |}.

(** A product with a description. *)
Definition car_loan : obj :=
  {[ "id" := VStr "p3"; "name" := VStr "Car Loan"; "type" := VStr "loan";
     "description" := VStr "A loan for a new car";
     "status" := VStr "active" ]}.

Definition described_store : db :=
  {| products := [(VStr "p3", car_loan)]; document := None |}.

(** [loan] as [addProduct] stores it, and the store it leaves. *)
Definition saved_loan : obj :=
  <["status" := VStr "active"]>
    (<["updatedAt" := VStr "t2"]> (<["createdAt" := VStr "t1"]> loan)).

Definition saved_store : db :=
  {| products := [(VStr "p1", saved_loan)];
     document := Some [saved_loan] |}.

Import Matcher.

Definition person (id first_name last_name : string) : customer :=
  {[ "id" := VStr id;
     "first_name" := VStr first_name;
     "last_name" := VStr last_name;
     "email" := VStr (ascii_toLowerCase first_name +:+ "@example.com") ]}.

Definition alice : customer := person "c1" "Alice" "Archer".
Definition bob : customer := person "c2" "Bob" "Baker".
Definition carol : customer := person "c3" "Carol" "Cook".

Definition a_recommendation : recommendation :=
  {| rec_recommendedProduct :=
       Some {| productId := VStr "p1";
               productName := VStr "Loan";
               matchReason := VStr "A good fit";
               confidenceScore := VNum 90 |};
     rec_personalizationInsights :=
       Some {| primaryBenefit := VStr "A low rate";
               secondaryBenefits := Some [VStr "No fees"] |};
     rec_offerCustomization := Some {| specialOffer := VUndef |};
     rec_emailSubject := VStr "An offer for you" |}.

(** A match as [matchSingleCustomer] returns it. *)
Definition matched_to (c : customer) : Match :=
  {| m_customer := c;
     m_success := true;
     m_error := VUndef;
     m_recommendation := Some a_recommendation;
     m_matchedAt := VStr "2025-01-01T00:00:00.000Z" |}.

(** A failed match with the given error. *)
Definition unmatched (c : customer) (error : val) : Match :=
  {| m_customer := c;
     m_success := false;
     m_error := error;
     m_recommendation := None;
     m_matchedAt := VUndef |}.

(** An email as [generatePersonalizedEmails] pushes it. *)
Definition email_to (c : customer) : email :=
  GeneratedEmail c (matched_to c) (VStr "An offer for you") "<p>Hello</p>"
    {| pp_id := VStr "p1";
       pp_name := VStr "Loan";
       pp_details := "Dear customer";
       pp_expiryDate := "January 31, 2025";
       pp_offerCode := "CBAA000000";
       pp_campaign := "ai_matched_offers_2025" |}
    VUndef true false.

Definition plain_texts : Texts :=
  {| buildMatchingPrompt := λ _ _, "Analyze this customer profile";
     parseRecommendation := λ content,
       match content with
       | VStr _ => Normal (Some a_recommendation)
       | _ => Throw "Unexpected token"
       end;
     buildNudgePrompt := λ _, Normal "You are an expert";
     parseNudgeReply := λ response,
       match response with
       | VStr text =>
           Normal {| ed_subject := VStr "An offer for you";
                     ed_plainTextContent := VStr text;
                     ed_nudgingTechniques := VUndef;
                     ed_personalizations := VUndef |}
       | _ => Throw "No response generated from OpenAI"
       end;
     renderHtml := λ text _ _ _, "<p>" +:+ text +:+ "</p>";
     toISOString := λ t, pretty t;
     formatExpiry := λ t, pretty t |}.

Definition an_entry : option email_result :=
  Some {| er_id := VStr "msg"; er_error := VUndef; er_message := VUndef |}.

(** A world that counts the calls; a model that always answers; a mail
    service that accepts every batch with one entry per message, and
    every single message but those to Bob. *)
Definition steady : services nat :=
  {| chat_completion := λ _ w, (S w, Normal (VStr "Hello"));
     generateEmail := λ _ _ w, (w, Normal "<p>Hello</p>");
     batch_send := λ payloads w,
       (S w, Normal (BatchData ((λ _, an_entry) <$> payloads)));
     emails_send := λ message w,
       (S w,
        if bool_decide (p_to message = [field bob "email"])
        then Throw "insufficient balance"
        else Normal {| sr_data_id := VStr "msg"; sr_id := VUndef |});
     date_now := λ w, (w, Z.of_nat w);
     sleep := λ _ w, w |}.

(** The same, with a mail service that answers every batch with no
    entry at all. *)
Definition terse : services nat :=
  {| chat_completion := chat_completion steady;
     generateEmail := generateEmail steady;
     batch_send := λ _ w, (S w, Normal (BatchData []));
     emails_send := emails_send steady;
     date_now := date_now steady;
     sleep := sleep steady |}.

(** The same as [steady], with a mail service that refuses, entry by
    entry, the messages to Bob. *)
Definition choosy : services nat :=
  {| chat_completion := chat_completion steady;
     generateEmail := generateEmail steady;
     batch_send := λ payloads w,
       (S w,
        Normal (BatchData
          ((λ message,
              if bool_decide (p_to message = [field bob "email"])
              then Some {| er_id := VUndef;
                           er_error := VStr "insufficient balance";
                           er_message := VUndef |}
              else an_entry) <$> payloads)));
     emails_send := emails_send steady;
     date_now := date_now steady;
     sleep := sleep steady |}.


Definition in_twos : send_options :=
  {| fromName := VUndef; batchSize := Some 2 |}.

Definition start : env nat := {| world := 0%nat; trace := [] |}.

Definition in_threes : send_options :=
  {| fromName := VUndef; batchSize := Some 3 |}.

(** A batch size below zero. *)
Definition backwards : send_options :=
  {| fromName := VUndef; batchSize := Some (-1) |}.


(** The server before any preview. *)
Definition first_request : Server.app :=
  {| Server.a_outside := start; Server.emailPreviewCache := ∅ |}.

End Examples.

(** * Properties *)

(** ** The map *)

Section JSMapFacts.

Context {V : Type}.
Implicit Types (m : JSMap.t V) (k : val) (v : V).

Lemma get_set_eq k v m : JSMap.get k (JSMap.set k v m) = Some v.
Proof.
  induction m as [|[k' v'] m IH]; simpl.
  - by rewrite decide_True.
  - destruct (decide (k' = k)) as [->|Hne]; simpl.
    + by rewrite decide_True.
    + by rewrite decide_False.
Qed.

Lemma get_set_ne k k' v m :
  k ≠ k' → JSMap.get k' (JSMap.set k v m) = JSMap.get k' m.
Proof.
  intros Hne. induction m as [|[k0 v0] m IH]; simpl.
  - by rewrite decide_False.
  - destruct (decide (k0 = k)) as [->|Hk0]; simpl.
    + by rewrite !decide_False.
    + by rewrite IH.
Qed.

Lemma get_mutate_eq (f : V → V) k m :
  JSMap.get k (JSMap.mutate f k m) = f <$> JSMap.get k m.
Proof.
  induction m as [|[k' v'] m IH]; simpl; [done|].
  destruct (decide (k' = k)) as [->|Hne]; simpl.
  - by rewrite decide_True.
  - by rewrite decide_False.
Qed.

Lemma get_delete_eq k m : JSMap.get k (JSMap.delete k m) = None.
Proof.
  unfold JSMap.delete.
  induction m as [|[k' v'] m IH]; [done|].
  rewrite filter_cons.
  destruct (decide ((k', v').1 ≠ k)) as [Hne|Heq]; [|done].
  simpl in *. by rewrite decide_False.
Qed.

Lemma get_Some_elem_of k v m : JSMap.get k m = Some v → (k, v) ∈ m.
Proof.
  induction m as [|[k' v'] m IH]; simpl; [done|].
  destruct (decide (k' = k)) as [->|Hne].
  - intros [= ->]. apply list_elem_of_here.
  - intros Hget. apply list_elem_of_further. by apply IH.
Qed.

Lemma elem_of_delete k k' v m :
  (k', v) ∈ JSMap.delete k m ↔ (k', v) ∈ m ∧ k' ≠ k.
Proof.
  unfold JSMap.delete. rewrite list_elem_of_filter. simpl. tauto.
Qed.

Lemma elem_of_values v m : v ∈ JSMap.values m ↔ ∃ k, (k, v) ∈ m.
Proof.
  unfold JSMap.values. rewrite list_elem_of_fmap. split.
  - intros ([k v'] & -> & Hin). by exists k.
  - intros (k & Hin). by exists (k, v).
Qed.

Lemma has_true_iff k m : JSMap.has k m = true ↔ is_Some (JSMap.get k m).
Proof.
  unfold JSMap.has. by destruct (JSMap.get k m).
Qed.

End JSMapFacts.

(** ** The product store *)

Section ProductStoreFacts.

Import ProductDatabase Examples.

Implicit Types (st : db) (P Q p : obj) (id : val).

(** The record [addProduct] stores for [P]. *)
#[local] Abbreviation stamped created updated P :=
  (<["status" := or_else (field P "status") (VStr "active")]>
     (<["updatedAt" := VStr updated]> (<["createdAt" := VStr created]> P))).

Lemma field_insert_ne (o : obj) k k' v :
  k ≠ k' → field (<[k := v]> o) k' = field o k'.
Proof. intros Hne. unfold field. by rewrite lookup_insert_ne. Qed.

Lemma field_insert_eq (o : obj) k v : field (<[k := v]> o) k = v.
Proof. unfold field. by rewrite lookup_insert_eq. Qed.

Lemma addProduct_invalid created updated write_ok P st :
  missing_required P = true →
  addProduct created updated write_ok P st = (st, Normal false).
Proof.
  intros Hinv. unfold addProduct, try_catch, bind, when_; simpl.
  by rewrite Hinv.
Qed.

Lemma addProduct_duplicate created updated write_ok P st :
  JSMap.has (field P "id") (products st) = true →
  addProduct created updated write_ok P st = (st, Normal false).
Proof.
  intros Hhas. unfold addProduct, try_catch, bind, when_, gets; simpl.
  destruct (missing_required P); simpl; [done|].
  by rewrite Hhas.
Qed.

Lemma addProduct_fresh created updated write_ok P st :
  missing_required P = false →
  JSMap.has (field P "id") (products st) = false →
  products (addProduct created updated write_ok P st).1 =
    JSMap.set (field P "id") (stamped created updated P) (products st)
  ∧ (addProduct created updated write_ok P st).2 = Normal write_ok.
Proof.
  intros Hvalid Hhas.
  unfold addProduct, try_catch, bind, when_, gets, modify; simpl.
  rewrite Hvalid; simpl. rewrite Hhas; simpl.
  rewrite !field_insert_ne by done.
  by destruct write_ok.
Qed.

(** C6. A valid product with a fresh id, once added, is read back as the
    product itself with the two time stamps and the status it had or,
    by default, ['active']; adding any product with that id again
    returns [false] and leaves the whole store as it was. *)
Theorem add_then_get (created updated : string) (write_ok : bool)
    (P : obj) (st : db) :
  missing_required P = false →
  getProduct (field P "id") st = None →
  let st1 := (addProduct created updated write_ok P st).1 in
  getProduct (field P "id") st1
    = Some (<["status" := or_else (field P "status") (VStr "active")]>
             (<["updatedAt" := VStr updated]>
               (<["createdAt" := VStr created]> P)))
  ∧ (field P "status" = VUndef →
     (λ p, field p "status") <$> getProduct (field P "id") st1
       = Some (VStr "active"))
  ∧ ∀ created' updated' write_ok' Q,
      field Q "id" = field P "id" →
      addProduct created' updated' write_ok' Q st1 = (st1, Normal false).
Proof.
  intros Hvalid Hfresh st1.
  assert (Hhas : JSMap.has (field P "id") (products st) = false).
  { unfold JSMap.has, getProduct in *. by rewrite Hfresh. }
  destruct (addProduct_fresh created updated write_ok P st Hvalid Hhas)
    as [Hprod _].
  assert (Hget : getProduct (field P "id") st1
                 = Some (stamped created updated P)).
  { unfold getProduct, st1. rewrite Hprod. apply get_set_eq. }
  split; [exact Hget|]. split.
  - intros Hstatus. rewrite Hget. simpl. f_equal.
    rewrite field_insert_eq, Hstatus. done.
  - intros created' updated' write_ok' Q HQ.
    apply addProduct_duplicate. rewrite HQ.
    apply has_true_iff. unfold getProduct in Hget. rewrite Hget. by eexists.
Qed.

Lemma filter_throwing_sublist {A} (pred : A → completion bool) xs ys :
  filter_throwing pred xs = Normal ys → sublist ys xs.
Proof.
  revert ys. induction xs as [|x xs IH]; simpl; intros ys.
  - intros [= <-]. constructor.
  - destruct (pred x) as [b|]; [|done].
    destruct (filter_throwing pred xs) as [zs|]; [|done].
    intros [= <-]. destruct b; [apply sublist_skip | apply sublist_cons];
      by apply IH.
Qed.

Lemma filter_sublist_mono {A} (P : A → Prop) `{!∀ x, Decision (P x)}
    (l1 l2 : list A) :
  sublist l1 l2 → sublist (filter P l1) (filter P l2).
Proof.
  induction 1 as [|x l1 l2 _ IH|x l1 l2 _ IH]; [done| |];
    rewrite ?filter_cons; destruct (decide (P x)); try done.
  - by apply sublist_skip.
  - by apply sublist_cons.
Qed.

Lemma getProducts_sublist `{Builtins} (f : filters) st l :
  getProducts f st = Normal l →
  sublist l
    (if bool_decide (f_active f ≠ VUndef)
     then filter (λ p, field p "status" = VStr "active")
            (JSMap.values (products st))
     else JSMap.values (products st)).
Proof.
  unfold getProducts. intros Hl.
  set (l0 := JSMap.values (products st)) in *.
  set (l1 := if truthy (f_type f) then _ else l0) in *.
  set (l2 := if truthy (f_status f) then _ else l1) in *.
  assert (H1 : sublist l1 l0).
  { subst l1. destruct (truthy (f_type f)); [apply sublist_filter|done]. }
  assert (H2 : sublist l2 l0).
  { subst l2. destruct (truthy (f_status f)); [|done].
    etrans; [apply sublist_filter|done]. }
  assert (H3 : sublist
            (if bool_decide (f_active f ≠ VUndef)
             then filter (λ p, field p "status" = VStr "active") l2 else l2)
            (if bool_decide (f_active f ≠ VUndef)
             then filter (λ p, field p "status" = VStr "active") l0 else l0)).
  { destruct (bool_decide (f_active f ≠ VUndef)); [|done].
    by apply filter_sublist_mono. }
  etrans; [|exact H3].
  destruct (truthy (f_search f)); [|by injection Hl as <-].
  destruct (call_toLowerCase (f_search f)); [|done].
  by eapply filter_throwing_sublist.
Qed.

Lemma deleteProduct_products deleted updated write_ok id hard st p :
  getProduct id st = Some p →
  products (deleteProduct deleted updated write_ok id hard st).1 =
    if hard then JSMap.delete id (products st)
    else JSMap.mutate
           (λ product,
              <["updatedAt" := VStr updated]>
                (<["deletedAt" := VStr deleted]>
                   (<["status" := VStr "inactive"]> product)))
           id (products st).
Proof.
  unfold getProduct. intros Hget.
  unfold deleteProduct, try_catch, bind, gets, modify; simpl.
  rewrite Hget. by destruct hard, write_ok.
Qed.

(** C7. After a soft delete of a stored product, the record held under
    that id has status ['inactive'], is listed under
    [{status: 'inactive'}] and is not listed under [{active: true}];
    after a hard delete nothing is held under that id, and every record
    of every listing is held under another id. *)
Theorem delete_then_list `{Builtins} (deleted updated : string)
    (write_ok : bool) (id : val) (st : db) (p : obj) :
  getProduct id st = Some p →
  let soft := (deleteProduct deleted updated write_ok id false st).1 in
  let hard := (deleteProduct deleted updated write_ok id true st).1 in
  (∃ p', getProduct id soft = Some p'
       ∧ field p' "status" = VStr "inactive"
       ∧ (∃ l, getProducts {| f_type := VUndef; f_status := VStr "inactive";
                              f_active := VUndef; f_search := VUndef |} soft
               = Normal l ∧ p' ∈ l)
       ∧ (∃ l, getProducts {| f_type := VUndef; f_status := VUndef;
                              f_active := VBool true; f_search := VUndef |}
                 soft
               = Normal l ∧ p' ∉ l))
  ∧ getProduct id hard = None
  ∧ ∀ (f : filters) l q,
      getProducts f hard = Normal l → q ∈ l →
      ∃ k, k ≠ id ∧ (k, q) ∈ products hard.
Proof.
  intros Hget soft hard. split; [|split].
  - pose proof (deleteProduct_products deleted updated write_ok id false
                  st p Hget) as Hsoft.
    fold soft in Hsoft. simpl in Hsoft.
    eexists. split.
    { unfold getProduct. rewrite Hsoft, get_mutate_eq.
      unfold getProduct in Hget. by rewrite Hget. }
    assert (Hstatus : field (<["updatedAt" := VStr updated]>
               (<["deletedAt" := VStr deleted]>
                  (<["status" := VStr "inactive"]> p))) "status"
            = VStr "inactive").
    { rewrite 2!field_insert_ne by done. apply field_insert_eq. }
    split; [exact Hstatus|]. split.
    + eexists. split; [reflexivity|].
      simpl. apply list_elem_of_filter. split; [exact Hstatus|].
      apply elem_of_values. exists id. apply get_Some_elem_of.
      rewrite Hsoft, get_mutate_eq. unfold getProduct in Hget.
      by rewrite Hget.
    + eexists. split; [reflexivity|].
      simpl. rewrite list_elem_of_filter. intros [Hact _].
      rewrite Hstatus in Hact. done.
  - pose proof (deleteProduct_products deleted updated write_ok id true
                  st p Hget) as Hhard.
    unfold getProduct. fold hard in Hhard. rewrite Hhard.
    apply get_delete_eq.
  - intros f l q Hl Hq.
    pose proof (deleteProduct_products deleted updated write_ok id true
                  st p Hget) as Hhard.
    fold hard in Hhard.
    apply getProducts_sublist in Hl.
    assert (Hin : q ∈ JSMap.values (products hard)).
    { eapply elem_of_sublist in Hl; [|exact Hq].
      destruct (bool_decide _); [|done].
      by apply list_elem_of_filter in Hl as [_ ?]. }
    apply elem_of_values in Hin as [k Hk]. exists k. split; [|done].
    rewrite Hhard in Hk. by apply elem_of_delete in Hk as [_ ?].
Qed.

(** C10. Whenever [filters.active] is not [undefined], be it [false] or
    [null], the listing is drawn, in order, from the products whose
    status is ['active']; without a free-text filter it is returned. *)
Theorem active_key_lists_active_only `{Builtins} (f : filters) (st : db) :
  f_active f ≠ VUndef →
  (∀ l, getProducts f st = Normal l →
     sublist l (filter (λ p, field p "status" = VStr "active")
                  (JSMap.values (products st)))
     ∧ Forall (λ p, field p "status" = VStr "active") l)
  ∧ (truthy (f_search f) = false → ∃ l, getProducts f st = Normal l).
Proof.
  intros Hactive. split.
  - intros l Hl. apply getProducts_sublist in Hl.
    rewrite bool_decide_eq_true_2 in Hl by done.
    split; [done|].
    apply Forall_forall. intros q Hq.
    eapply elem_of_sublist in Hl; [|exact Hq].
    by apply list_elem_of_filter in Hl as [? _].
  - intros Hsearch. unfold getProducts. rewrite Hsearch. by eexists.
Qed.

(** C8, as the code has it. [addProduct] returns [false] and leaves the
    store alone when [id], [name] or [type] is missing or falsy and when
    the id is already there, and so does [updateProduct] when the id is
    not there; neither of them ever throws. *)
Theorem store_failures_are_returned (created updated : string)
    (write_ok : bool) (P updates : obj) (id : val) (st : db) :
  ((truthy (field P "id") = false ∨ truthy (field P "name") = false
    ∨ truthy (field P "type") = false
    ∨ JSMap.has (field P "id") (products st) = true) →
   addProduct created updated write_ok P st = (st, Normal false))
  ∧ (getProduct id st = None →
     updateProduct updated write_ok id updates st = (st, Normal false))
  ∧ (∃ b, (addProduct created updated write_ok P st).2 = Normal b)
  ∧ (∃ b, (updateProduct updated write_ok id updates st).2 = Normal b).
Proof.
  split; [|split; [|split]].
  - intros [Hid|[Hname|[Htype|Hhas]]].
    + apply addProduct_invalid. unfold missing_required. by rewrite Hid.
    + apply addProduct_invalid. unfold missing_required. rewrite Hname.
      by destruct (truthy (field P "id")).
    + apply addProduct_invalid. unfold missing_required. rewrite Htype.
      by destruct (truthy (field P "id")), (truthy (field P "name")).
    + by apply addProduct_duplicate.
  - unfold getProduct. intros Hget.
    unfold updateProduct, try_catch, bind, gets; simpl. by rewrite Hget.
  - unfold addProduct, try_catch, bind, when_, gets, modify; simpl.
    destruct (missing_required P); simpl; [by eexists|].
    destruct (JSMap.has _ _); simpl; [by eexists|].
    destruct write_ok; by eexists.
  - unfold updateProduct, try_catch, bind, gets, modify; simpl.
    destruct (JSMap.get id (products st)); simpl; [|by eexists].
    destruct write_ok; by eexists.
Qed.

Lemma add_then_get_witness :
  missing_required loan = false
  ∧ getProduct (field loan "id") empty_store = None
  ∧ (λ p, field p "status")
      <$> getProduct (field loan "id")
            (addProduct "t1" "t2" true loan empty_store).1
    = Some (VStr "active").
Proof.
  split; [reflexivity|]. split; [reflexivity|].
  refine (proj1 (proj2 (add_then_get "t1" "t2" true loan empty_store
                          _ _)) _); reflexivity.
Defined.

Lemma delete_then_list_witness :
  getProduct (VStr "p1") one_store
    = Some (<["status" := VStr "active"]> loan)
  ∧ getProduct (VStr "p1")
      (deleteProduct "t3" "t4" true (VStr "p1") true one_store).1 = None.
Proof.
  split; [reflexivity|].
  refine (proj1 (proj2 (delete_then_list (H := ascii_builtins) "t3" "t4"
                          true (VStr "p1") one_store _ _)));
    reflexivity.
Defined.

Lemma active_key_lists_active_only_witness :
  VBool false ≠ VUndef
  ∧ ∃ l, getProducts (H := ascii_builtins)
           {| f_type := VUndef; f_status := VUndef;
              f_active := VBool false; f_search := VUndef |} one_store
         = Normal l.
Proof.
  split; [discriminate|].
  refine (proj2 (active_key_lists_active_only (H := ascii_builtins)
                   {| f_type := VUndef; f_status := VUndef;
                      f_active := VBool false; f_search := VUndef |}
                   one_store _) _); [discriminate|reflexivity].
Defined.

Lemma store_failures_are_returned_witness :
  truthy (field nameless "name") = false
  ∧ getProduct (VStr "p9") one_store = None
  ∧ addProduct "t1" "t2" true nameless one_store
    = (one_store, Normal false)
  ∧ updateProduct "t2" true (VStr "p9") ∅ one_store
    = (one_store, Normal false).
Proof.
  split; [reflexivity|]. split; [reflexivity|].
  destruct (store_failures_are_returned "t1" "t2" true nameless ∅
              (VStr "p9") one_store) as (Hadd & Hupdate & _).
  split; [apply Hadd; right; left; reflexivity|apply Hupdate; reflexivity].
Defined.

(** C8 as stated fails: a product without a name is not refused by an
    error raised at the caller, but by the value [false]; likewise an
    update of an id that is not there. *)
Lemma store_failures_raised_counterexample :
  truthy (field nameless "name") = false
  ∧ (addProduct "t1" "t2" true nameless one_store).2 = Normal false
  ∧ (∀ e, (addProduct "t1" "t2" true nameless one_store).2 ≠ Throw e)
  ∧ getProduct (VStr "p9") one_store = None
  ∧ (updateProduct "t2" true (VStr "p9") ∅ one_store).2 = Normal false
  ∧ (∀ e, (updateProduct "t2" true (VStr "p9") ∅ one_store).2 ≠ Throw e).
Proof. repeat split; done. Qed.

End ProductStoreFacts.

(** ** The preview cache *)

Section PreviewCacheFacts.

Import PreviewCache.

Context {E : Type}.

(** C5. An email stored for a customer and a product is read back as
    long as less than an hour has passed on the clock, and is absent
    from one hour on. *)
Theorem cache_round_trip (c p : val) (e : E) (t_set t_get : Z)
    (emailPreviewCache : gmap string (entry E)) :
  let stored := setCachedEmail t_set c p e emailPreviewCache in
  (t_get - t_set < 60 * 60 * 1000 →
   getCachedEmail t_get c p stored = Some e)
  ∧ (60 * 60 * 1000 ≤ t_get - t_set →
     getCachedEmail t_get c p stored = None).
Proof.
  intros stored. unfold stored, getCachedEmail, setCachedEmail.
  rewrite lookup_insert_eq. simpl. split; intros Hage.
  - by rewrite (proj2 (Z.ltb_lt _ _)).
  - by rewrite (proj2 (Z.ltb_ge _ _)).
Qed.

End PreviewCacheFacts.

Lemma cache_round_trip_witness :
  (1000 - 0 < 60 * 60 * 1000) ∧ (60 * 60 * 1000 ≤ 3600001 - 0)
  ∧ PreviewCache.getCachedEmail 1000 (VStr "c1") (VStr "p1")
      (PreviewCache.setCachedEmail 0 (VStr "c1") (VStr "p1") "hello" ∅)
    = Some "hello"
  ∧ PreviewCache.getCachedEmail 3600001 (VStr "c1") (VStr "p1")
      (PreviewCache.setCachedEmail 0 (VStr "c1") (VStr "p1") "hello" ∅)
    = None.
Proof.
  split; [lia|]. split; [lia|]. split.
  - apply (proj1 (cache_round_trip (VStr "c1") (VStr "p1") "hello" 0 1000 ∅)).
    lia.
  - apply (proj2 (cache_round_trip (VStr "c1") (VStr "p1") "hello" 0 3600001
                    ∅)).
    lia.
Defined.


(** ** Loops and chunks *)

Section LoopFacts.

Import Vocabulary.

Lemma ceil_div_spec n c :
  0 < c → ceil_div n c * c - c < n ≤ ceil_div n c * c.
Proof.
  intros Hc. unfold ceil_div.
  pose proof (Z.div_mod (n + c - 1) c ltac:(lia)) as Hdm.
  pose proof (Z.mod_pos_bound (n + c - 1) c Hc) as Hmod.
  nia.
Qed.

Lemma ceil_div_nonpos n c : 0 < c → n ≤ 0 → ceil_div n c ≤ 0.
Proof. intros Hc Hn. pose proof (ceil_div_spec n c Hc). nia. Qed.

Lemma ceil_div_pos n c : 0 < c → 0 < n → 0 < ceil_div n c.
Proof. intros Hc Hn. pose proof (ceil_div_spec n c Hc). nia. Qed.

Lemma ceil_div_step n c : 0 < c → ceil_div (n - c) c = ceil_div n c - 1.
Proof.
  intros Hc. unfold ceil_div.
  replace (n - c + c - 1) with (n + c - 1 + (-1) * c) by lia.
  rewrite Z.div_add by lia. lia.
Qed.

Lemma turns_seq n i step :
  turns n i step = (λ k, i + Z.of_nat k * step) <$> seq 0 n.
Proof.
  revert i. induction n as [|n IH]; intros i; [done|].
  simpl. rewrite IH. f_equal; [lia|].
  rewrite <- (fmap_S_seq 0 n), <- list_fmap_compose.
  apply list_fmap_ext. intros _ k _. simpl. lia.
Qed.

(** A loop whose step is positive and whose body never throws leaves
    with [Some] after [Math.ceil((bound - i) / step)] turns, given that
    much fuel. *)
Lemma for_loop_turns {S} (body : Z → M S unit) fuel i bound step st :
  0 < step →
  (∀ i st, (body i st).2 = Normal tt) →
  (Z.to_nat (ceil_div (bound - i) step) ≤ fuel)%nat →
  for_loop fuel i bound step body st =
    (run_turns body (turns (Z.to_nat (ceil_div (bound - i) step)) i step) st,
     Normal (Some tt)).
Proof.
  intros Hstep Hbody. revert i st.
  induction fuel as [|fuel IH]; intros i st Hfuel.
  - destruct (Z.ltb_spec i bound) as [Hlt|Hge]; simpl.
    + pose proof (ceil_div_pos (bound - i) step Hstep ltac:(lia)). lia.
    + rewrite (proj2 (Z.ltb_ge _ _)) by done.
      pose proof (ceil_div_nonpos (bound - i) step Hstep ltac:(lia)).
      by replace (Z.to_nat _) with 0%nat by lia.
  - simpl. destruct (Z.ltb_spec i bound) as [Hlt|Hge].
    + pose proof (ceil_div_pos (bound - i) step Hstep ltac:(lia)) as Hpos.
      pose proof (ceil_div_step (bound - i) step Hstep) as Hnext.
      replace (bound - i - step) with (bound - (i + step)) in Hnext by lia.
      destruct (Z.to_nat (ceil_div (bound - i) step)) as [|n] eqn:Hn;
        [lia|].
      assert (Hn' : Z.to_nat (ceil_div (bound - (i + step)) step) = n)
        by lia.
      unfold bind. specialize (Hbody i st).
      destruct (body i st) as [st1 r] eqn:Hrun. simpl in Hbody. subst r.
      rewrite IH by lia. rewrite Hn'. simpl. unfold run_turns. simpl.
      by rewrite Hrun.
    + pose proof (ceil_div_nonpos (bound - i) step Hstep ltac:(lia)).
      by replace (Z.to_nat _) with 0%nat by lia.
Qed.

(** A loop whose step is not positive never leaves once it is
    entered: whatever the fuel, it is still running. *)
Lemma for_loop_stuck {S} (body : Z → M S unit) fuel i bound step st :
  step ≤ 0 → i < bound →
  (∀ i st, (body i st).2 = Normal tt) →
  (for_loop fuel i bound step body st).2 = Normal None.
Proof.
  intros Hstep Hi Hbody. revert i st Hi.
  induction fuel as [|fuel IH]; intros i st Hi; simpl;
    rewrite (proj2 (Z.ltb_lt _ _) Hi); [done|].
  unfold bind. specialize (Hbody i st).
  destruct (body i st) as [st1 r]. simpl in Hbody. subst r.
  apply IH. lia.
Qed.

Lemma slice_take_drop {A} (l : list A) i c :
  0 ≤ i → 0 < c →
  slice l i (i + c) = take (Z.to_nat c) (drop (Z.to_nat i) l).
Proof.
  intros Hi Hc. unfold slice, slice_index.
  rewrite !(proj2 (Z.ltb_ge _ _)) by lia.
  destruct (Z.le_gt_cases (Z.of_nat (length l)) i) as [Hout|Hin].
  - rewrite !Z.min_r by lia. rewrite !drop_ge by lia.
    by rewrite !take_nil.
  - rewrite (Z.min_l i) by lia.
    destruct (Z.le_gt_cases (i + c) (Z.of_nat (length l))) as [Hfit|Hcut].
    + rewrite Z.min_l by lia. f_equal. lia.
    + rewrite Z.min_r by lia.
      rewrite !take_ge; [done| |]; rewrite length_drop; lia.
Qed.




(** The batches cut by the loop of [sendEmails] are the chunks. *)
Lemma slices_chunks {A} (l : list A) c :
  0 < c →
  (λ i, slice l i (i + c))
    <$> turns (Z.to_nat (ceil_div (Z.of_nat (length l) - 0) c)) 0 c
  = chunks c l.
Proof.
  intros Hc. unfold chunks. rewrite Z.sub_0_r, turns_seq.
  rewrite <- list_fmap_compose. apply list_fmap_ext. intros _ k _. simpl.
  rewrite slice_take_drop by lia. do 2 f_equal. lia.
Qed.

End LoopFacts.

(** ** Frames: what a method does to its array and to the log *)

Section FrameFacts.

Import Matcher Vocabulary.

Context {W : Type} (svc : services W) `{Texts}.

Lemma bind_normal {S A B} (c : M S A) (k : A → M S B) st st' a :
  c st = (st', Normal a) → bind c k st = k a st'.
Proof. unfold bind. by intros ->. Qed.

Lemma grows_refl {L} (st : frame W L) : grows st st [] [].
Proof. unfold grows. by rewrite !app_nil_r. Qed.

Lemma grows_trans {L} (st1 st2 st3 : frame W L) xs xs' evs evs' :
  grows st1 st2 xs evs → grows st2 st3 xs' evs' →
  grows st1 st3 (xs ++ xs') (evs ++ evs').
Proof.
  unfold grows. intros [-> ->] [-> ->]. by rewrite !app_assoc.
Qed.

Lemma quiet_ret {L A} P (a : A) : quiet (L := L) (W := W) P (ret a).
Proof. intros st. exists []. split; [apply grows_refl|constructor]. Qed.

Lemma quiet_throw {L A} P e :
  quiet (L := L) (W := W) (A := A) P (throw e).
Proof. intros st. exists []. split; [apply grows_refl|constructor]. Qed.

Lemma quiet_lift {L A} P (c : completion A) :
  quiet (L := L) (W := W) P (lift c).
Proof. intros st. exists []. split; [apply grows_refl|constructor]. Qed.

Lemma quiet_bind {L A B} P (c : M (frame W L) A) (k : A → M (frame W L) B) :
  quiet P c → (∀ a, quiet P (k a)) → quiet P (bind c k).
Proof.
  intros Hc Hk st. unfold bind.
  destruct (Hc st) as (evs & Hg & Hevs).
  destruct (c st) as [st1 [a|e]]; simpl in *; [|by exists evs].
  destruct (Hk a st1) as (evs' & Hg' & Hevs').
  exists (evs ++ evs'). split.
  - by apply (grows_trans _ _ _ [] [] _ _ Hg Hg').
  - by apply Forall_app.
Qed.

Lemma quiet_try_catch {L A} P (c : M (frame W L) A) handler :
  quiet P c → (∀ e, quiet P (handler e)) → quiet P (try_catch c handler).
Proof.
  intros Hc Hh st. unfold try_catch.
  destruct (Hc st) as (evs & Hg & Hevs).
  destruct (c st) as [st1 [a|e]]; simpl in *; [by exists evs|].
  destruct (Hh e st1) as (evs' & Hg' & Hevs').
  exists (evs ++ evs'). split.
  - by apply (grows_trans _ _ _ [] [] _ _ Hg Hg').
  - by apply Forall_app.
Qed.

Lemma quiet_call {L A} (P : event → Prop) (ev : completion A → event) f :
  (∀ r, P (ev r)) → quiet (L := L) (W := W) P (call ev f).
Proof.
  intros HP st. unfold call.
  destruct (f (world (outside st))) as [w' r]. simpl.
  exists [ev r]. split; [|by repeat constructor].
  unfold grows. simpl. by rewrite app_nil_r.
Qed.

Lemma quiet_now {L} P : quiet (L := L) P (now svc).
Proof.
  intros st. unfold now.
  destruct (date_now svc (world (outside st))) as [w' t]. simpl.
  exists []. split; [|constructor]. unfold grows. simpl.
  by rewrite !app_nil_r.
Qed.

Lemma push_grows {L} (x : L) (st : frame W L) :
  push x st = ({| outside := outside st; array := array st ++ [x] |},
               Normal tt)
  ∧ grows st (push x st).1 [x] [].
Proof. split; [done|]. unfold grows. simpl. by rewrite app_nil_r. Qed.

(** A loop over a list whose body pushes one element each time. *)
Lemma for_of_collect {L A} (R : A → L → list event → Prop)
    (body : A → M (frame W L) unit) (xs : list A) :
  (∀ x st, ∃ st' y evs,
      body x st = (st', Normal tt) ∧ grows st st' [y] evs ∧ R x y evs) →
  ∀ st, ∃ st' ys evss,
    for_of xs body st = (st', Normal tt)
    ∧ grows st st' ys (concat evss)
    ∧ Forall3 R xs ys evss.
Proof.
  intros Hbody. induction xs as [|x xs IH]; intros st; simpl.
  - exists st, [], []. split; [done|].
    split; [apply grows_refl|constructor].
  - unfold bind. destruct (Hbody x st) as (st1 & y & evs & -> & Hg & HR).
    destruct (IH st1) as (st2 & ys & evss & -> & Hg' & HR').
    exists st2, (y :: ys), (evs :: evss). split; [done|]. split.
    + apply (grows_trans _ _ _ [y] ys evs (concat evss) Hg Hg').
    + by constructor.
Qed.

Lemma method_run {L A} (body : M (frame W L) A) (e : env W) st' r :
  body {| outside := e; array := [] |} = (st', r) →
  method body e = (outside st', r).
Proof. unfold method. by intros ->. Qed.

End FrameFacts.

(** ** The matcher *)

Section MatcherFacts.

Import Matcher Vocabulary.

Context {W : Type} (svc : services W) `{Texts}.

Lemma match_turn products (c : customer) (st : frame W Match) :
  ∃ st' m evs,
    try_catch
      (let* match_ := matchSingleCustomer svc c products in
       do* push match_ in
       wait svc 1000)
      (λ error, push (failed_match c error)) st = (st', Normal tt)
    ∧ grows st st' [m] evs
    ∧ matched products c m evs.
Proof.
  unfold try_catch, bind, matchSingleCustomer, try_catch, bind, call,
    lift, now, throw, push, modify, wait, ret, grows, matched. simpl.
  destruct (chat_completion svc _ _) as [w1 [content|e]]; simpl.
  - destruct (parseRecommendation content) as [r|e] eqn:Hparse; simpl.
    + destruct (date_now svc w1) as [w2 t]. simpl.
      eexists _, _, _. split; [done|]. split.
      { split; [done|]. by rewrite <- app_assoc. }
      eexists _, _. split; [done|]. split; [done|]. split; [done|].
      by rewrite Hparse.
    + eexists _, _, _. split; [done|]. split; [done|].
      eexists _, _. split; [done|]. split; [done|]. split; [done|].
      by rewrite Hparse.
  - eexists _, _, _. split; [done|]. split; [done|].
    eexists _, _. split; [done|]. split; [done|]. done.
Qed.

(** C9. [matchCustomersToProducts] returns, for any customers and
    products and whatever the model answers, one entry per customer in
    the order of the input: a call is made for every customer, and a
    call that fails, or whose reply does not parse, leaves the failed
    entry with the customer and the message. *)
Theorem matching_keeps_every_customer (customers : list customer)
    (products : list obj) (e : env W) :
  ∃ e' matches evss,
    matchCustomersToProducts svc customers products e = (e', Normal matches)
    ∧ trace e' = trace e ++ concat evss
    ∧ Forall3 (matched products) customers matches evss
    ∧ length matches = length customers
    ∧ m_customer <$> matches = customers
    ∧ customers_asked (concat evss) = customers.
Proof.
  unfold matchCustomersToProducts.
  set (st0 := {| outside := e; array := [] |} : frame W Match).
  destruct (for_of_collect (matched products)
              (λ c, try_catch
                 (let* match_ := matchSingleCustomer svc c products in
                  do* push match_ in
                  wait svc 1000)
                 (λ error, push (failed_match c error)))
              customers (match_turn products) st0)
    as (st1 & ms & evss & Hrun & [Harr Htr] & HF).
  exists (outside st1), ms, evss. simpl in *.
  split.
  { apply method_run. fold st0.
    rewrite (bind_normal _ _ _ _ _ Hrun). unfold gets. by rewrite Harr. }
  split; [done|]. split; [done|].
  clear Harr Htr Hrun. induction HF as [|c m evs cs ms evss Hm _ IH]; [done|].
  destruct IH as (IH1 & IH2 & IH3).
  destruct Hm as (reply & sleeps & -> & Hsl & Hc & _).
  split; [simpl; by rewrite IH1|]. split; [simpl; by f_equal|].
  cbn [concat]. unfold customers_asked in *.
  rewrite omap_app. cbn [omap list_omap]. rewrite Hsl, IH3. done.
Qed.

(** *** Generation *)

Lemma generateOfferCode_quiet {L} P (c : customer) :
  quiet (L := L) P (generateOfferCode svc c).
Proof.
  unfold generateOfferCode.
  destruct (field c "first_name"), (field c "last_name");
    try apply quiet_throw.
  apply quiet_bind; [apply quiet_now|]. intros t. apply quiet_ret.
Qed.

Lemma personalize_quiet {L} P (m : Match) :
  quiet (L := L) P (personalize svc m).
Proof.
  unfold personalize.
  apply quiet_bind; [apply quiet_lift|]. intros rp.
  apply quiet_bind; [apply quiet_lift|]. intros details.
  apply quiet_bind.
  { apply quiet_bind; [apply quiet_now|]. intros t. apply quiet_ret. }
  intros expiry.
  apply quiet_bind; [apply generateOfferCode_quiet|]. intros code.
  apply quiet_ret.
Qed.

Lemma personalize_complete {L} (m : Match) (st st' : frame W L) pp :
  personalize svc m st = (st', Normal pp) → complete_match m.
Proof.
  unfold personalize, complete_match, bind at 1, lift.
  destruct (recommended_of m) as [rp|e]; [|done].
  unfold bind at 1. destruct (buildPersonalizedProductDetails m); [|done].
  unfold bind at 1, generateOfferExpiry, bind at 1, now.
  destruct (date_now svc (world (outside st))) as [w1 t]. simpl.
  unfold bind, generateOfferCode.
  destruct (field (m_customer m) "first_name") as [| | | |first_name|];
    try done.
  destruct (field (m_customer m) "last_name") as [| | | |last_name|];
    try done.
  intros _. split; [by eexists|by eexists _, _].
Qed.

Lemma generateNudgeOptimizedEmail_quiet {L} (m : Match) :
  quiet (L := L) (generation_call m) (generateNudgeOptimizedEmail svc m).
Proof.
  unfold generateNudgeOptimizedEmail.
  apply quiet_bind; [apply quiet_lift|]. intros rp.
  apply quiet_bind; [apply quiet_lift|]. intros prompt.
  apply quiet_try_catch; [|intros e; apply quiet_throw].
  apply quiet_bind.
  { apply quiet_call. intros r. left. by eexists _, _. }
  intros response.
  apply quiet_bind; [apply quiet_lift|]. intros emailData.
  apply quiet_bind; [|intros html; apply quiet_ret].
  unfold convertPlainTextToHtml.
  apply quiet_bind; [apply generateOfferCode_quiet|]. intros code.
  destruct (ed_plainTextContent emailData);
    apply quiet_throw || apply quiet_ret.
Qed.

Lemma quiet_run {L A} P (c : M (frame W L) A) (st : frame W L) :
  quiet P c →
  ∃ st' r evs, c st = (st', r) ∧ array st' = array st
         ∧ trace (outside st') = trace (outside st) ++ evs
         ∧ Forall P evs.
Proof.
  intros Hc. destruct (Hc st) as (evs & [Harr Htr] & Hev).
  destruct (c st) as [st' r]. exists st', r, evs.
  by rewrite app_nil_r in Harr.
Qed.

Lemma fallback_turn (m : Match) (st : frame W email) :
  ∃ st' e evs,
    try_catch
      (let* personalizedProduct := personalize svc m in
       let* emailContent :=
         call (EvTemplateCall m personalizedProduct)
           (generateEmail svc (m_customer m) personalizedProduct) in
       let* recommendation := lift (recommendation_of m) in
       push (GeneratedEmail (m_customer m) m
               (rec_emailSubject recommendation) emailContent
               personalizedProduct VUndef false true))
      (λ fallbackError,
         push (FailedEmail (m_customer m) (VStr fallbackError))) st
    = (st', Normal tt)
    ∧ grows st st' [e] evs
    ∧ e_customer e = m_customer m
    ∧ Forall (generation_call m) evs
    ∧ (e_success e = true → e_match e = Some m ∧ complete_match m).
Proof.
  unfold try_catch, bind at 1, grows.
  destruct (quiet_run _ _ st (personalize_quiet (generation_call m) m))
    as (st2 & r2 & evs2 & Hpp & Harr2 & Htr2 & Hev2).
  rewrite Hpp. destruct r2 as [pp|err].
  - apply personalize_complete in Hpp.
    unfold bind, call, lift, push, modify. simpl.
    destruct (generateEmail svc _ _ _) as [w3 [content|err]]; simpl;
      [destruct (recommendation_of m); simpl|];
      (eexists _, _, _; split; [done|]; simpl; rewrite Harr2, Htr2;
       split; [by rewrite <- app_assoc|]; split; [done|];
       split; [|done]; apply Forall_app; split; [done|];
       apply Forall_singleton; right; by eexists _, _).
  - unfold push, modify. simpl.
    eexists _, _, _. split; [done|]. simpl. by rewrite Harr2, Htr2.
Qed.

Lemma generate_turn (m : Match) (st : frame W email) :
  ∃ st' e evs,
    generate_step svc m st = (st', Normal tt)
    ∧ grows st st' [e] evs
    ∧ generated m e evs.
Proof.
  unfold generate_step, generated.
  destruct (m_success m) eqn:Hsuccess; simpl.
  - unfold try_catch at 1. unfold bind at 1.
    destruct (quiet_run _ _ st (generateNudgeOptimizedEmail_quiet m))
      as (st1 & r1 & evs1 & -> & Harr1 & Htr1 & Hev1).
    assert (Hg1 : grows st st1 [] evs1).
    { split; [by rewrite app_nil_r|done]. }
    destruct r1 as [n|err].
    + unfold bind at 1.
      destruct (quiet_run _ _ st1 (personalize_quiet (generation_call m) m))
        as (st2 & r2 & evs2 & Hpp & Harr2 & Htr2 & Hev2).
      assert (Hg2 : grows st1 st2 [] evs2).
      { split; [by rewrite app_nil_r|done]. }
      pose proof (grows_trans _ _ _ _ _ _ _ Hg1 Hg2) as Hg12.
      rewrite Hpp. destruct r2 as [pp|err].
      * apply personalize_complete in Hpp.
        destruct (push_grows
          (GeneratedEmail (m_customer m) m (n_subject n) (n_htmlContent n)
             pp (n_nudgingTechniques n) true false) st2) as [Hpush Hg3].
        rewrite Hpush in *.
        eexists _, _, _. split; [done|]. split.
        { apply (grows_trans _ _ _ _ _ _ _ Hg12 Hg3). }
        split; [done|]. rewrite app_nil_r.
        split; [by apply Forall_app|done].
      * destruct (fallback_turn m st2)
          as (st' & e & evs & -> & Hg3 & Hc & Hev & He).
        eexists _, _, _. split; [done|]. split.
        { apply (grows_trans _ _ _ _ _ _ _ Hg12 Hg3). }
        split; [done|]. split; [|done].
        apply Forall_app. split; [by apply Forall_app|done].
    + destruct (fallback_turn m st1)
        as (st' & e & evs & -> & Hg3 & Hc & Hev & He).
      eexists _, _, _. split; [done|]. split.
      { apply (grows_trans _ _ _ _ _ _ _ Hg1 Hg3). }
      split; [done|]. split; [by apply Forall_app|done].
  - destruct (push_grows (FailedEmail (m_customer m) (m_error m)) st)
      as [Hpush Hg].
    rewrite Hpush in *. eexists _, _, _. split; [done|]. split; [done|].
    done.
Qed.

End MatcherFacts.

(** ** Sending *)

Section SendFacts.

Import Matcher Vocabulary.

Context {W : Type} (svc : services W) `{Texts}.

Lemma generation_run (matches : list Match) (e : env W) :
  ∃ e' emails evss,
    generatePersonalizedEmails svc matches e = (e', Normal emails)
    ∧ trace e' = trace e ++ concat evss
    ∧ Forall3 generated matches emails evss.
Proof.
  unfold generatePersonalizedEmails.
  set (st0 := {| outside := e; array := [] |} : frame W email).
  destruct (for_of_collect generated (generate_step svc) matches
              (generate_turn svc) st0)
    as (st1 & emails & evss & Hrun & [Harr Htr] & HF).
  exists (outside st1), emails, evss. simpl in *.
  split; [|done].
  apply method_run. fold st0.
  rewrite (bind_normal _ _ _ _ _ Hrun). unfold gets. by rewrite Harr.
Qed.

(** [forEach] of a callback that only pushes. *)
Lemma forEach_push {A L} (f : A → L) (xs : list A) (st : frame W L) :
  forEach xs (λ x _, push (f x)) st
  = ({| outside := outside st; array := array st ++ (f <$> xs) |},
     Normal tt).
Proof.
  unfold forEach. generalize 0%nat. revert st.
  induction xs as [|x xs IH]; intros st n; simpl.
  - unfold ret. rewrite app_nil_r. by destruct st.
  - unfold bind, push, modify. simpl. rewrite IH. simpl.
    by rewrite <- app_assoc.
Qed.

Lemma productMatched_well_generated (e : email) :
  well_generated e → ∃ v, productMatched_of e = Normal v.
Proof.
  intros (m & Hm & _ & [rp Hrp] & _). unfold productMatched_of.
  rewrite Hm, Hrp. by eexists.
Qed.

(** The entries of a reply that is not longer than the batch, for
    emails as they are generated: one report each, and no exception. *)
Lemma process_entries (batch : list email) data index
    (st : frame W result) :
  Forall well_generated batch →
  (index + length data ≤ length batch)%nat →
  ∃ st' xs,
    forEach_from index data (process_entry svc batch) st
    = (st', Normal tt)
    ∧ grows st st' xs []
    ∧ Forall3 entry_reported (take (length data) (drop index batch))
        data xs.
Proof.
  intros Hwg. revert index st.
  induction data as [|entry data IH]; intros index st Hlen; simpl.
  - exists st, []. split; [done|]. split; [apply grows_refl|].
    rewrite take_0. constructor.
  - simpl in Hlen.
    destruct (lookup_lt_is_Some_2 batch index ltac:(lia)) as [em Hem].
    assert (Hxs : ∃ st1 x,
      process_entry svc batch entry index st = (st1, Normal tt)
      ∧ grows st st1 [x] [] ∧ entry_reported em entry x).
    { unfold process_entry. rewrite Hem.
      destruct (has_id entry) eqn:Hid.
      - unfold bind, now, lift.
        destruct (date_now svc (world (outside st))) as [w1 t]. simpl.
        destruct (productMatched_well_generated em) as [v ->].
        { eapply Forall_forall; [exact Hwg|].
          by eapply list_elem_of_lookup_2. }
        unfold push, modify. simpl. eexists _, _. split; [done|].
        split; [split; simpl; by rewrite ?app_nil_r|].
        unfold entry_reported. rewrite Hid. done.
      - unfold push, modify. simpl. eexists _, _. split; [done|].
        split; [split; simpl; by rewrite ?app_nil_r|].
        unfold entry_reported. rewrite Hid. done. }
    destruct Hxs as (st1 & x & Hrun & Hg & Hrep).
    rewrite (bind_normal _ _ _ _ _ Hrun).
    destruct (IH (S index) st1 ltac:(lia)) as (st2 & xs & -> & Hg' & HF).
    exists st2, (x :: xs). split; [done|]. split.
    + apply (grows_trans _ _ _ [x] xs [] [] Hg Hg').
    + rewrite (drop_S _ _ _ Hem). simpl. by constructor.
Qed.

(** Whatever the reply, the entries are gone through without anything
    being logged. *)
Lemma process_entries_any (batch : list email) data index
    (st : frame W result) :
  ∃ xs, grows st
          (forEach_from index data (process_entry svc batch) st).1 xs [].
Proof.
  revert index st. induction data as [|entry data IH]; intros index st.
  - exists []. apply grows_refl.
  - simpl. unfold bind.
    assert (Hone : ∃ xs, grows st
              (process_entry svc batch entry index st).1 xs []).
    { unfold process_entry.
      destruct (batch !! index) as [em|]; [|exists []; apply grows_refl].
      destruct (has_id entry).
      - unfold bind, now, lift.
        destruct (date_now svc (world (outside st))) as [w1 t]. simpl.
        destruct (productMatched_of em); simpl.
        + eexists [_]. split; simpl; by rewrite ?app_nil_r.
        + exists []. split; simpl; by rewrite ?app_nil_r.
      - eexists [_]. split; simpl; by rewrite ?app_nil_r. }
    destruct Hone as (xs1 & Hg1).
    destruct (process_entry svc batch entry index st) as [st1 [[]|err]];
      simpl in *; [|by exists xs1].
    destruct (IH (S index) st1) as (xs2 & Hg2).
    exists (xs1 ++ xs2).
    apply (grows_trans _ _ _ xs1 xs2 [] [] Hg1 Hg2).
Qed.

Lemma slice_Forall {A} (P : A → Prop) (l : list A) a b :
  Forall P l → Forall P (slice l a b).
Proof. intros HP. unfold slice. by apply Forall_take, Forall_drop. Qed.

Lemma payloads_ok from (batch : list email) :
  Forall (λ e, e_success e = true) batch →
  ∃ payloads,
    map_throwing
      (λ email, make_payload from (field (e_customer email) "email") email)
      batch = Normal payloads
    ∧ length payloads = length batch.
Proof.
  induction 1 as [|e batch He _ (payloads & IH & Hlen)]; simpl.
  - by exists [].
  - destruct e; [|done]. simpl. rewrite IH.
    eexists. split; [done|]. simpl. by rewrite Hlen.
Qed.

(** One turn of the loop of [sendEmails] never throws, and leaves what
    [batch_turn] says. *)
Lemma send_turn from bs (validEmails : list email) i
    (st : frame W result) :
  Forall (λ e, e_success e = true) validEmails →
  ∃ st' xs evs,
    send_batch svc from bs validEmails i st = (st', Normal tt)
    ∧ grows st st' xs evs
    ∧ batch_turn svc (slice validEmails i (i + bs)) xs evs.
Proof.
  intros Hvalid. unfold send_batch.
  set (batch := slice validEmails i (i + bs)).
  destruct (payloads_ok from batch) as (payloads & Hpay & Hlen).
  { by apply slice_Forall. }
  rewrite Hpay. unfold try_catch, bind at 1, lift.
  unfold bind at 1, call.
  destruct (batch_send svc payloads (world (outside st)))
    as [w1 reply] eqn:Hsend.
  set (st1 := {| outside := {| world := w1;
                   trace := trace (outside st)
                            ++ [EvBatchSend batch payloads reply] |};
                 array := array st |}).
  assert (Hg1 : grows st st1 [] [EvBatchSend batch payloads reply]).
  { split; simpl; by rewrite ?app_nil_r. }
  assert (Hfail : ∀ (st2 : frame W result) message xs,
    grows st1 st2 xs [] →
    ∃ st',
      forEach batch (λ email _,
        push (NotSent (e_customer email)
                (VStr ("Batch send failed: " +:+ message)) None)) st2
      = (st', Normal tt)
      ∧ grows st st' (xs ++ (failed_result message <$> batch))
          [EvBatchSend batch payloads reply]).
  { intros st2 message xs Hg2.
    eexists. split.
    { apply (forEach_push (failed_result message) batch st2). }
    pose proof (grows_trans _ _ _ _ _ _ _ Hg1 Hg2) as [Harr Htr].
    split; simpl; [|done]. rewrite Harr. simpl. by rewrite app_assoc. }
  destruct reply as [[data|message|type_]|message]; simpl.
  - destruct (process_entries_any batch data 0%nat st1) as (xs1 & Hg2).
    change (forEach data (process_entry svc batch))
      with (forEach_from 0 data (process_entry svc batch)).
    unfold bind at 1.
    destruct (forEach_from 0 data (process_entry svc batch) st1)
      as [st2 [[]|err]] eqn:Hrun; simpl in Hg2.
    + pose proof (grows_trans _ _ _ _ _ _ _ Hg1 Hg2) as Hg12.
      simpl in Hg12.
      assert (Hwait : ∃ st3 sleeps,
        when_ (i + bs <? Z.of_nat (length validEmails)) (wait svc 1000) st2
        = (st3, Normal tt)
        ∧ grows st2 st3 [] sleeps
        ∧ Forall (λ ev, ∃ ms, ev = EvSleep ms) sleeps).
      { unfold when_. destruct (_ <? _).
        - eexists _, [EvSleep 1000]. split; [done|].
          split; [split; simpl; by rewrite ?app_nil_r|].
          apply Forall_singleton. by eexists.
        - eexists _, []. split; [done|]. split; [apply grows_refl|done]. }
      destruct Hwait as (st3 & sleeps & -> & Hg3 & Hsl).
      pose proof (grows_trans _ _ _ _ _ _ _ Hg12 Hg3) as Hg.
      rewrite app_nil_r in Hg.
      exists st3, xs1, (EvBatchSend batch payloads (Normal (BatchData data))
                        :: sleeps).
      split; [done|]. split; [done|].
      exists payloads, (Normal (BatchData data)), sleeps,
        (world (outside st)), w1.
      split; [done|]. split; [done|]. split; [done|]. split; [done|].
      split; [done|].
      intros data' [= <-] Hdata Hwg.
      destruct (process_entries batch data 0%nat st1 Hwg ltac:(lia))
        as (st2' & xs' & Hrun' & [Harr' _] & HF).
      rewrite Hrun in Hrun'. injection Hrun' as <-.
      destruct Hg2 as [Harr2 _]. rewrite Harr2 in Harr'.
      apply app_inv_head in Harr'. subst xs'.
      rewrite drop_0, Hdata, take_ge in HF by lia. done.
    + destruct (Hfail st2 err xs1 Hg2) as (st' & -> & Hg).
      eexists _, _, _. split; [done|]. split; [exact Hg|].
      exists payloads, (Normal (BatchData data)), [],
        (world (outside st)), w1.
      split; [done|]. split; [done|]. split; [done|]. split; [done|].
      split; [done|].
      intros data' [= <-] Hdata Hwg.
      destruct (process_entries batch data 0%nat st1 Hwg ltac:(lia))
        as (st2' & xs' & Hrun' & _).
      rewrite Hrun in Hrun'. done.
  - unfold throw.
    destruct (Hfail st1 ("Resend API error: " +:+ message) []
                (grows_refl st1)) as (st' & -> & Hg).
    eexists _, _, _. split; [done|]. split; [exact Hg|].
    exists payloads, (Normal (BatchError message)), [],
      (world (outside st)), w1.
    split; [done|]. split; [done|]. split; [done|]. split; [done|].
    split; [|done]. by intros ? [= <-].
  - unfold throw.
    destruct (Hfail st1
      ("Invalid batch response format from Resend API. Expected {data: {data: Array}}, got: "
       +:+ type_) [] (grows_refl st1)) as (st' & -> & Hg).
    eexists _, _, _. split; [done|]. split; [exact Hg|].
    exists payloads, (Normal (BatchOther type_)), [],
      (world (outside st)), w1.
    split; [done|]. split; [done|]. split; [done|]. split; [done|].
    split; [|done]. by intros ? [= <-].
  - destruct (Hfail st1 message [] (grows_refl st1)) as (st' & -> & Hg).
    eexists _, _, _. split; [done|]. split; [exact Hg|].
    exists payloads, (Throw message), [], (world (outside st)), w1.
    split; [done|]. split; [done|]. split; [done|]. split; [done|].
    split; [|done]. by intros ? [= <-].
Qed.

Lemma run_turns_collect {L} (R : Z → list L → list event → Prop)
    (body : Z → M (frame W L) unit) (indices : list Z) :
  (∀ i st, ∃ st' xs evs,
      body i st = (st', Normal tt) ∧ grows st st' xs evs ∧ R i xs evs) →
  ∀ st, ∃ xss evss,
    grows st (run_turns body indices st) (concat xss) (concat evss)
    ∧ Forall3 R indices xss evss.
Proof.
  intros Hbody. unfold run_turns.
  induction indices as [|i indices IH]; intros st; simpl.
  - exists [], []. split; [apply grows_refl|constructor].
  - destruct (Hbody i st) as (st1 & xs & evs & -> & Hg & HR). simpl.
    destruct (IH st1) as (xss & evss & Hg' & HF).
    exists (xs :: xss), (evs :: evss). split; [|by constructor].
    apply (grows_trans _ _ _ _ _ _ _ Hg Hg').
Qed.

Lemma Forall3_fmap_l {A A' B C} (f : A → A') (P : A' → B → C → Prop)
    l k k' :
  Forall3 (λ x, P (f x)) l k k' → Forall3 P (f <$> l) k k'.
Proof. induction 1; simpl; by constructor. Qed.



(** X25. With a negative batch size and an email to send, [sendEmails]
    does not return: however many turns it is given, it is still in
    its loop. *)
Lemma sendEmails_negative_batch_size fuel (emails : list email)
    (options : send_options) (e : env W) c :
  batchSize options = Some c → c < 0 →
  Exists (λ em, e_success em = true) emails →
  (sendEmails svc fuel emails options e).2 = Normal None.
Proof.
  intros Hsize Hc Hsome. unfold sendEmails.
  set (validEmails := filter (λ email, e_success email = true) emails).
  set (failedEmails := filter (λ email, e_success email ≠ true) emails).
  assert (Hbs : batchSize_or_default options = c).
  { unfold batchSize_or_default. rewrite Hsize.
    destruct (Z.eqb_spec c 0); [lia|done]. }
  assert (Hvalid : Forall (λ e, e_success e = true) validEmails).
  { apply Forall_forall. intros em Hem.
    by apply list_elem_of_filter in Hem as [? _]. }
  assert (Hlen : (0 < length validEmails)%nat).
  { apply Exists_exists in Hsome as (em & Hin & Hsucc).
    assert (em ∈ validEmails) as Hem by by apply list_elem_of_filter.
    destruct validEmails; [by apply elem_of_nil in Hem|simpl; lia]. }
  unfold method.
  set (st0 := {| outside := e; array := [] |} : frame W result).
  rewrite (bind_normal _ _ _ _ _
             (forEach_push generation_failure failedEmails st0)).
  destruct (Nat.eqb_spec (length validEmails) 0) as [?|_]; [lia|].
  rewrite Hbs. unfold bind at 1.
  match goal with
  | |- context [for_loop fuel 0 ?b c ?body ?s0] =>
      pose proof (for_loop_stuck body fuel 0 b c s0 ltac:(lia) ltac:(lia)
        (λ j s, match send_turn _ c validEmails j s Hvalid with
                | ex_intro _ _ (ex_intro _ _ (ex_intro _ _
                    (conj Hrun _))) => f_equal snd Hrun
                end)) as Hstuck;
      destruct (for_loop fuel 0 b c body s0) as [st1 r]
  end.
  simpl in Hstuck. by subst r.
Qed.

End SendFacts.

(** ** The dispatch run *)

Section DispatchFacts.

Import Matcher Vocabulary.

Context {W : Type} (svc : services W) `{Texts}.

Lemma ceil_div_le n c : 0 < c → 0 ≤ n → ceil_div n c ≤ n.
Proof. intros Hc Hn. pose proof (ceil_div_spec n c Hc). nia. Qed.

Lemma filter_all {A} (P : A → Prop) `{!∀ x, Decision (P x)} (l : list A) :
  Forall P l → filter P l = l.
Proof.
  induction 1 as [|x l Hx _ IH]; [done|].
  rewrite filter_cons, decide_True by done. by rewrite IH.
Qed.

Lemma filter_none {A} (P : A → Prop) `{!∀ x, Decision (P x)} (l : list A) :
  Forall (λ x, ¬ P x) l → filter P l = [].
Proof.
  induction 1 as [|x l Hx _ IH]; [done|].
  by rewrite filter_cons, decide_False.
Qed.


Lemma batches_sent_app t1 t2 :
  batches_sent (t1 ++ t2) = batches_sent t1 ++ batches_sent t2.
Proof. apply omap_app. Qed.

Lemma batches_sent_sleeps sleeps :
  Forall (λ ev, ∃ ms, ev = EvSleep ms) sleeps → batches_sent sleeps = [].
Proof. induction 1 as [|ev sleeps [ms ->] _ IH]; [done|]. exact IH. Qed.






Lemma fuel_for_valid fuel (emails : list email) bs :
  let validEmails := filter (λ em, e_success em = true) emails in
  0 < bs → (length emails ≤ fuel)%nat →
  (Z.to_nat (ceil_div (Z.of_nat (length validEmails)) bs) ≤ fuel)%nat.
Proof.
  intros validEmails Hbs Hfuel.
  pose proof (length_filter (λ em, e_success em = true) emails).
  pose proof (ceil_div_le (Z.of_nat (length validEmails)) bs Hbs
                ltac:(lia)).
  fold validEmails in H0. lia.
Qed.




End DispatchFacts.

(** ** One recipient at a time *)

Section IsolationFacts.

Import Matcher Server Vocabulary.

Context {W : Type} (svc : services W) `{Texts} `{Builtins}.





End IsolationFacts.

(** ** The chunks of the progress variant *)

Section ProgressFacts.

Import Matcher Server Vocabulary.

Context {W : Type} (svc : services W) `{Texts} `{Builtins}.








End ProgressFacts.

(** ** Chunk after chunk *)

Section ChunkFacts.

Import Matcher Server Vocabulary.

Context {W : Type} (svc : services W) `{Texts} `{Builtins}.


End ChunkFacts.

(** ** The statements on sample data *)

Section Samples.

Import Matcher Server Vocabulary Examples.

#[local] Existing Instance plain_texts.
#[local] Existing Instance ascii_builtins.







Lemma email_to_sendable (c : customer) (first_name last_name : string) :
  field c "first_name" = VStr first_name →
  field c "last_name" = VStr last_name →
  sendable (email_to c).
Proof.
  intros Hfirst Hlast. split; [reflexivity|].
  exists (matched_to c). split; [reflexivity|]. split; [reflexivity|].
  split; [by eexists|]. by exists first_name, last_name.
Defined.


(** The example of the specification: three emails in a chunk, of
    which the send of the second rejects. *)
Example second_send_of_three_rejects :
  ∃ st' rs,
    map_M (send_one steady) [email_to alice; email_to bob; email_to carol]
      {| outside := start; array := [] |} = (st', Normal rs)
    ∧ r_success <$> rs = [true; false; true]
    ∧ length (filter (λ r, r_success r = true) rs) = 2%nat
    ∧ length (filter (λ r, r_success r ≠ true) rs) = 1%nat
    ∧ r_error <$> rs = [VUndef; VStr "insufficient balance"; VUndef]
    ∧ r_customer <$> rs = [alice; bob; carol].
Proof.
  eexists _, _. split; [vm_compute; reflexivity|].
  repeat split; vm_compute; reflexivity.
Qed.

(** The scenario of the specification: five matches of which one had
    failed, chunks of two, and one of the four messages refused by the
    mail service. *)
Example five_matches_in_twos :
  ∃ e' results,
    dispatch choosy 5
      [matched_to alice; matched_to bob;
       unmatched carol (VStr "AI matching failed: timeout");
       matched_to carol; matched_to alice]
      in_twos start = (e', Normal (Some results))
    ∧ r_customer <$> results = [carol; alice; bob; carol; alice]
    ∧ r_success <$> results = [false; true; false; true; true]
    ∧ r_error <$> results
      = [VStr "AI matching failed: timeout"; VUndef;
         VStr "insufficient balance"; VUndef; VUndef]
    ∧ length (batches_sent (trace e')) = 2%nat.
Proof.
  eexists _, _. split; [vm_compute; reflexivity|].
  repeat split; vm_compute; reflexivity.
Qed.

End Samples.
(** ** The product store, further *)

Section JSMapInPlace.

Context {V : Type}.
Implicit Types (m : JSMap.t V) (k : val) (v : V).

Lemma get_mutate_ne (f : V → V) k k' m :
  k ≠ k' → JSMap.get k' (JSMap.mutate f k m) = JSMap.get k' m.
Proof.
  intros Hne. induction m as [|[k0 v0] m IH]; simpl; [done|].
  destruct (decide (k0 = k)) as [->|Hk0]; simpl.
  - by rewrite !decide_False.
  - by rewrite IH.
Qed.

Lemma keys_mutate (f : V → V) k m : (JSMap.mutate f k m).*1 = m.*1.
Proof.
  induction m as [|[k0 v0] m IH]; simpl; [done|].
  destruct (decide (k0 = k)); simpl; [done|by f_equal].
Qed.

Lemma get_delete_ne k k' m :
  k ≠ k' → JSMap.get k' (JSMap.delete k m) = JSMap.get k' m.
Proof.
  intros Hne. unfold JSMap.delete.
  induction m as [|[k0 v0] m IH]; [done|].
  rewrite filter_cons. simpl.
  destruct (decide (k0 ≠ k)) as [Hk0|Hk0]; simpl.
  - by rewrite IH.
  - apply dec_stable in Hk0 as ->. by rewrite decide_False.
Qed.

Lemma get_None_keys k m : JSMap.get k m = None ↔ k ∉ m.*1.
Proof.
  induction m as [|[k0 v0] m IH]; simpl.
  - split; [intros _; apply not_elem_of_nil|done].
  - rewrite not_elem_of_cons. destruct (decide (k0 = k)) as [->|Hk0].
    + split; [done|]. intros [? _]. done.
    + rewrite IH. split; [intros ?; split; [done|done]|by intros [_ ?]].
Qed.

Lemma set_fresh k v m : JSMap.get k m = None → JSMap.set k v m = m ++ [(k, v)].
Proof.
  induction m as [|[k0 v0] m IH]; simpl; [done|].
  destruct (decide (k0 = k)); [done|]. intros Hget. by rewrite IH.
Qed.

Lemma keys_set_present k v m :
  is_Some (JSMap.get k m) → (JSMap.set k v m).*1 = m.*1.
Proof.
  induction m as [|[k0 v0] m IH]; simpl; [by intros [? ?]|].
  destruct (decide (k0 = k)); [done|]. intros Hget. simpl. f_equal.
  by apply IH.
Qed.

End JSMapInPlace.

Section StoreOperations.

Import ProductDatabase Vocabulary.

Implicit Types (st : db) (P Q p : obj) (id : val).

(** X1. [updateProduct] on a stored product merges the updates into the
    record in place: the record read back is the old one overlaid with
    the updates and stamped with the time of the update, every other
    record and the order of the store are as before, and the call
    returns whether the file was written. *)
Theorem update_merges_in_place (updated : string) (write_ok : bool)
    (id : val) (updates p : obj) (st : db) :
  getProduct id st = Some p →
  ∃ st1,
    updateProduct updated write_ok id updates st = (st1, Normal write_ok)
    ∧ getProduct id st1
      = Some (<["updatedAt" := VStr updated]> (assign p updates))
    ∧ (∀ p1 k, getProduct id st1 = Some p1 → k ≠ "updatedAt" →
         field p1 k = match updates !! k with
                      | Some v => v
                      | None => field p k
                      end)
    ∧ (∀ id', id' ≠ id → getProduct id' st1 = getProduct id' st)
    ∧ (products st1).*1 = (products st).*1.
Proof.
  unfold getProduct. intros Hget.
  assert (Hrun : ∃ st1,
    updateProduct updated write_ok id updates st = (st1, Normal write_ok)
    ∧ products st1
      = JSMap.mutate (λ product, <["updatedAt" := VStr updated]>
                                   (assign product updates)) id
          (products st)).
  { unfold updateProduct, try_catch, bind, gets, modify, saveDatabase;
      simpl. rewrite Hget. destruct write_ok; simpl; by eexists. }
  destruct Hrun as (st1 & Hrun & Hprod). exists st1.
  assert (Hget1 : JSMap.get id (products st1)
                  = Some (<["updatedAt" := VStr updated]>
                            (assign p updates))).
  { by rewrite Hprod, get_mutate_eq, Hget. }
  split; [done|]. split; [done|]. split; [|split].
  - intros p1 k Hp1 Hk. rewrite Hget1 in Hp1. injection Hp1 as <-.
    unfold field. rewrite lookup_insert_ne by done.
    unfold assign. rewrite lookup_union.
    destruct (updates !! k) as [v|] eqn:Hu; simpl.
    + by destruct (p !! k).
    + by destruct (p !! k).
  - intros id' Hne. rewrite Hprod. by apply get_mutate_ne.
  - rewrite Hprod. apply keys_mutate.
Qed.

(** X2. When the file cannot be written, [addProduct] returns [false]
    for a valid product with a fresh id, but the product stays in the
    store while the file is as it was; adding it again then returns
    [false] whether or not the file can be written. *)
Theorem failed_write_is_not_rolled_back (created updated : string)
    (P : obj) (st : db) :
  missing_required P = false →
  getProduct (field P "id") st = None →
  ∃ st1 p,
    addProduct created updated false P st = (st1, Normal false)
    ∧ getProduct (field P "id") st1 = Some p
    ∧ document st1 = document st
    ∧ ∀ created' updated' write_ok',
        addProduct created' updated' write_ok' P st1 = (st1, Normal false).
Proof.
  unfold getProduct. intros Hvalid Hfresh.
  assert (Hhas : JSMap.has (field P "id") (products st) = false).
  { unfold JSMap.has. by rewrite Hfresh. }
  eexists _, _. split; [|split; [|split]].
  - unfold addProduct, try_catch, bind, when_, gets, modify, saveDatabase;
      simpl. rewrite Hvalid; simpl. rewrite Hhas; simpl. reflexivity.
  - simpl. rewrite !field_insert_ne by done. apply get_set_eq.
  - done.
  - intros created' updated' write_ok'. apply addProduct_duplicate.
    simpl. rewrite !field_insert_ne by done.
    apply has_true_iff. rewrite get_set_eq. by eexists.
Qed.

(** X3. The file follows the returned value: after [addProduct],
    [updateProduct] or [deleteProduct] has returned [true] the file
    holds the records of the store, in the order of the store; after
    [false] it is the file of before. *)
Theorem document_follows_success (created deleted updated : string)
    (write_ok hardDelete : bool) (P updates : obj) (id : val) (st : db) :
  let follows (run : db * completion bool) :=
    ∃ b, run.2 = Normal b
         ∧ document run.1
           = if b then Some (JSMap.values (products run.1))
             else document st in
  follows (addProduct created updated write_ok P st)
  ∧ follows (updateProduct updated write_ok id updates st)
  ∧ follows (deleteProduct deleted updated write_ok id hardDelete st).
Proof.
  intros follows. unfold follows. split; [|split].
  - unfold addProduct, try_catch, bind, when_, gets, modify, saveDatabase;
      simpl.
    destruct (missing_required P); simpl; [by exists false|].
    destruct (JSMap.has _ _); simpl; [by exists false|].
    destruct write_ok; simpl; [by exists true|by exists false].
  - unfold updateProduct, try_catch, bind, gets, modify, saveDatabase;
      simpl.
    destruct (JSMap.get id (products st)); simpl; [|by exists false].
    destruct write_ok; simpl; [by exists true|by exists false].
  - unfold deleteProduct, try_catch, bind, gets, modify, saveDatabase;
      simpl.
    destruct (JSMap.get id (products st)); simpl; [|by exists false].
    destruct hardDelete, write_ok; simpl;
      first [by exists true|by exists false].
Qed.

(** X4. [deleteProduct] on an id that is not in the store returns
    [false] and leaves the store alone, soft or hard; and it never
    throws. *)
Theorem delete_failures_are_returned (deleted updated : string)
    (write_ok hardDelete : bool) (id : val) (st : db) :
  (getProduct id st = None →
   deleteProduct deleted updated write_ok id hardDelete st
   = (st, Normal false))
  ∧ ∃ b, (deleteProduct deleted updated write_ok id hardDelete st).2
         = Normal b.
Proof.
  unfold getProduct. split.
  - intros Hget. unfold deleteProduct, try_catch, bind, gets; simpl.
    by rewrite Hget.
  - unfold deleteProduct, try_catch, bind, gets, modify, saveDatabase;
      simpl.
    destruct (JSMap.get id (products st)); simpl; [|by eexists].
    destruct hardDelete, write_ok; simpl; by eexists.
Qed.

(** X5. The three operations touch one record: what is held under any
    other id is the same before and after, whatever the operation
    returns. *)
Theorem other_records_are_untouched (created deleted updated : string)
    (write_ok hardDelete : bool) (P updates : obj) (id id' : val)
    (st : db) :
  (id' ≠ field P "id" →
   getProduct id' (addProduct created updated write_ok P st).1
   = getProduct id' st)
  ∧ (id' ≠ id →
     getProduct id' (updateProduct updated write_ok id updates st).1
     = getProduct id' st
     ∧ getProduct id'
         (deleteProduct deleted updated write_ok id hardDelete st).1
       = getProduct id' st).
Proof.
  unfold getProduct. split; [|intros Hne; split].
  - intros Hne.
    unfold addProduct, try_catch, bind, when_, gets, modify, saveDatabase;
      simpl.
    destruct (missing_required P); simpl; [done|].
    destruct (JSMap.has _ _); simpl; [done|].
    rewrite !field_insert_ne by done.
    destruct write_ok; simpl; by apply get_set_ne.
  - unfold updateProduct, try_catch, bind, gets, modify, saveDatabase;
      simpl.
    destruct (JSMap.get id (products st)); simpl; [|done].
    destruct write_ok; simpl; by apply get_mutate_ne.
  - unfold deleteProduct, try_catch, bind, gets, modify, saveDatabase;
      simpl.
    destruct (JSMap.get id (products st)); simpl; [|done].
    destruct hardDelete, write_ok; simpl;
      first [by apply get_delete_ne|by apply get_mutate_ne].
Qed.

Lemma filter_throwing_total {A} (pred : A → completion bool)
    (keep : A → bool) xs :
  Forall (λ x, pred x = Normal (keep x)) xs →
  filter_throwing pred xs = Normal (filter (λ x, keep x = true) xs).
Proof.
  induction 1 as [|x xs Hx _ IH]; simpl; [done|].
  rewrite Hx, IH, filter_cons. by destruct (keep x).
Qed.

Lemma filter_throwing_throws {A} (pred : A → completion bool) xs x :
  x ∈ xs → (∃ e, pred x = Throw e) → ∃ e, filter_throwing pred xs = Throw e.
Proof.
  intros Hin [e He]. induction Hin as [x xs|x y xs _ IH]; simpl.
  - rewrite He. by eexists.
  - destruct (pred y); [|by eexists].
    destruct IH as [e' ->]; [done|]. by eexists.
Qed.

Lemma filter_when {A} (c : bool) (P : A → Prop) `{!∀ x, Decision (P x)}
    (l : list A) :
  (if c then filter P l else l) = filter (λ x, c = true → P x) l.
Proof.
  destruct c.
  - apply list_filter_iff. naive_solver.
  - symmetry. apply filter_all. apply Forall_forall. by intros.
Qed.

Lemma getProducts_filters `{Builtins} (f : filters) st :
  getProducts f st
  = if truthy (f_search f)
    then match call_toLowerCase (f_search f) with
         | Throw e => Throw e
         | Normal searchTerm =>
             filter_throwing (matches_search searchTerm)
               (filter (passes f) (JSMap.values (products st)))
         end
    else Normal (filter (passes f) (JSMap.values (products st))).
Proof.
  unfold getProducts.
  assert (Hpass :
    (if bool_decide (f_active f ≠ VUndef)
     then filter (λ p, field p "status" = VStr "active")
            (if truthy (f_status f)
             then filter (λ p, field p "status" = f_status f)
                    (if truthy (f_type f)
                     then filter (λ p, field p "type" = f_type f)
                            (JSMap.values (products st))
                     else JSMap.values (products st))
             else (if truthy (f_type f)
                   then filter (λ p, field p "type" = f_type f)
                          (JSMap.values (products st))
                   else JSMap.values (products st)))
     else (if truthy (f_status f)
           then filter (λ p, field p "status" = f_status f)
                  (if truthy (f_type f)
                   then filter (λ p, field p "type" = f_type f)
                          (JSMap.values (products st))
                   else JSMap.values (products st))
           else (if truthy (f_type f)
                 then filter (λ p, field p "type" = f_type f)
                        (JSMap.values (products st))
                 else JSMap.values (products st))))
    = filter (passes f) (JSMap.values (products st))).
  { rewrite !filter_when, !list_filter_filter. apply list_filter_iff.
    intros p. unfold passes. rewrite bool_decide_eq_true. tauto. }
  by rewrite Hpass.
Qed.

(** X6. Without a free-text filter, [getProducts] returns, in the
    order of the store, exactly the records of which every filter that
    is there holds: the filters add up. *)
Theorem listing_is_conjunction_of_filters `{Builtins} (f : filters)
    (st : db) :
  truthy (f_search f) = false →
  getProducts f st
  = Normal (filter (passes f) (JSMap.values (products st))).
Proof. intros Hsearch. by rewrite getProducts_filters, Hsearch. Qed.

Lemma matches_search_described `{Builtins} term p :
  described p → matches_search term p = Normal (mentions term p).
Proof.
  intros (name & description & Hname & Hdescription).
  unfold matches_search, mentions. rewrite Hname, Hdescription. simpl.
  by destruct (includes (toLowerCase name) term).
Qed.

(** X7. With a free-text filter, and when the records that pass the
    other filters all have a name and a description that are strings,
    [getProducts] returns those of them that have the term, in lower
    case, in their lower-cased name or description. *)
Theorem search_lists_mentions `{Builtins} (f : filters) (st : db)
    (s : string) :
  f_search f = VStr s → s ≠ "" →
  Forall described (filter (passes f) (JSMap.values (products st))) →
  getProducts f st
  = Normal (filter (λ p, mentions (toLowerCase s) p = true)
              (filter (passes f) (JSMap.values (products st)))).
Proof.
  intros Hsearch Hs Hdescribed. rewrite getProducts_filters, Hsearch.
  simpl. destruct (String.eqb_spec s "") as [|_]; [done|]. simpl.
  apply filter_throwing_total.
  eapply Forall_impl; [exact Hdescribed|].
  intros p Hp. by apply matches_search_described.
Qed.

(** X8. [getProducts] throws at its caller when a free-text filter
    meets a record, passing the other filters, that has no string for
    a name, or whose name does not have the term while it has no
    string for a description. *)
Theorem search_throws_without_text `{Builtins} (f : filters) (st : db)
    (s : string) (p : obj) :
  f_search f = VStr s → s ≠ "" →
  p ∈ JSMap.values (products st) → passes f p →
  (∀ name, field p "name" = VStr name →
     includes (toLowerCase name) (toLowerCase s) = false
     ∧ ∀ description, field p "description" ≠ VStr description) →
  ∃ e, getProducts f st = Throw e.
Proof.
  intros Hsearch Hs Hin Hpass Htext. rewrite getProducts_filters, Hsearch.
  simpl. destruct (String.eqb_spec s "") as [|_]; [done|]. simpl.
  apply (filter_throwing_throws _ _ p).
  { by apply list_elem_of_filter. }
  unfold matches_search.
  destruct (field p "name") as [| | | |name|] eqn:Hname; simpl;
    try by eexists.
  destruct (Htext name eq_refl) as [-> Hdescription].
  destruct (field p "description") as [| | | |description|]; simpl;
    try by eexists.
  by destruct (Hdescription description).
Qed.

End StoreOperations.

Section StoreReload.

Import ProductDatabase Vocabulary.

Implicit Types (st : db) (P Q p : obj) (id : val) (m : JSMap.t obj).

Lemma Forall_mutate {V} (Q : val * V → Prop) (f : V → V) k
    (m : JSMap.t V) :
  (∀ v, Q (k, v) → Q (k, f v)) → Forall Q m → Forall Q (JSMap.mutate f k m).
Proof.
  intros Hf. induction 1 as [|[k0 v0] m Hx Hm IH]; simpl; [done|].
  destruct (decide (k0 = k)) as [->|_]; constructor; auto.
Qed.

Lemma load_records (l : list obj) index st :
  forEach_from index l
    (λ product _,
       modify (set_products (JSMap.set (field product "id") product))) st
  = ({| products := foldl (λ m p, JSMap.set (field p "id") p m)
                      (products st) l;
        document := document st |}, Normal tt).
Proof.
  revert index st. induction l as [|p l IH]; intros index st; simpl.
  - by destruct st.
  - unfold bind, modify at 1. simpl. by rewrite IH.
Qed.

Lemma reload_keyed m acc :
  well_keyed (acc ++ m) →
  foldl (λ m p, JSMap.set (field p "id") p m) acc (JSMap.values m)
  = acc ++ m.
Proof.
  revert acc. induction m as [|[k p] m IH]; intros acc [Hnodup Hkeys];
    simpl.
  - by rewrite app_nil_r.
  - assert (Hk : field p "id" = k).
    { apply Forall_app in Hkeys as [_ Hkeys].
      by apply Forall_cons in Hkeys as [? _]. }
    rewrite Hk. rewrite set_fresh.
    + rewrite IH; rewrite <- app_assoc; [done|]. by split.
    + apply get_None_keys. rewrite fmap_app in Hnodup.
      apply NoDup_app in Hnodup as (_ & Hdisjoint & _).
      intros Hin. apply (Hdisjoint k Hin). simpl. apply list_elem_of_here.
Qed.

(** X9. A store that is restarted finds itself again: when every
    record is held under its own id and the file holds the records of
    the store, a new [ProductDatabase] on that file has the same
    records under the same ids, in the same order, and leaves the file
    alone. *)
Theorem reload_restores_store (write_ok : bool) (st : db) :
  well_keyed (products st) →
  document st = Some (JSMap.values (products st)) →
  new_ProductDatabase (document st) true write_ok = (st, Normal tt).
Proof.
  destruct st as [m file]. simpl. intros Hkeyed ->.
  unfold new_ProductDatabase, loadDatabase, try_catch, bind, gets, ret;
    simpl.
  change (forEach ?l ?body) with (forEach_from 0 l body).
  rewrite load_records. simpl.
  by rewrite (reload_keyed m []).
Qed.

(** X10. A new [ProductDatabase] either comes up or throws ['Failed to
    load product database'], whatever went wrong: a file that cannot be
    read, or a file that is not there and cannot be created.  Without a
    file, and when it can be written, the store comes up empty and the
    file holds no record. *)
Theorem load_failures_are_renamed (file : option (list obj))
    (read_ok write_ok : bool) :
  (∀ st e, new_ProductDatabase file read_ok write_ok = (st, Throw e) →
     e = "Failed to load product database"
     ∧ (read_ok = false ∨ file = None ∧ write_ok = false))
  ∧ (file = None → write_ok = true →
     new_ProductDatabase file read_ok write_ok
     = ({| products := []; document := Some [] |}, Normal tt)).
Proof.
  split.
  - intros st e.
    unfold new_ProductDatabase, loadDatabase, try_catch, bind, gets,
      saveDatabase, try_catch; simpl.
    destruct file as [l|]; simpl.
    + destruct read_ok; simpl.
      * change (forEach ?l ?body) with (forEach_from 0 l body).
        rewrite load_records. done.
      * intros [= <- <-]. split; [done|by left].
    + destruct write_ok; simpl; [done|].
      intros [= <- <-]. split; [done|by right].
  - intros -> ->. reflexivity.
Qed.

(** X11. The operations keep the store well keyed: after [addProduct]
    and [deleteProduct], and after an [updateProduct] whose updates do
    not have an [id], every record is still held under its own id and
    no id is held twice. *)
Theorem operations_keep_store_well_keyed (created deleted updated : string)
    (write_ok hardDelete : bool) (P updates : obj) (id : val) (st : db) :
  well_keyed (products st) →
  well_keyed (products (addProduct created updated write_ok P st).1)
  ∧ well_keyed
      (products (deleteProduct deleted updated write_ok id hardDelete st).1)
  ∧ (updates !! "id" = None →
     well_keyed
       (products (updateProduct updated write_ok id updates st).1)).
Proof.
  intros [Hnodup Hkeys]. split; [|split].
  - unfold addProduct, try_catch, bind, when_, gets, modify, saveDatabase;
      simpl.
    destruct (missing_required P); simpl; [done|].
    destruct (JSMap.has _ _) eqn:Hhas; simpl; [done|].
    rewrite !field_insert_ne by done.
    assert (Hget : JSMap.get (field P "id") (products st) = None).
    { unfold JSMap.has in Hhas. by destruct (JSMap.get _ _). }
    assert (Hgoal : well_keyed
              (JSMap.set (field P "id")
                 (<["status" := or_else (field P "status") (VStr "active")]>
                    (<["updatedAt" := VStr updated]>
                       (<["createdAt" := VStr created]> P)))
                 (products st))).
    { rewrite set_fresh by done. split.
      - rewrite fmap_app. apply NoDup_app. split; [done|]. split.
        + intros k Hk Hk'. simpl in Hk'.
          apply list_elem_of_singleton in Hk' as ->.
          by apply get_None_keys in Hget.
        + apply NoDup_singleton.
      - apply Forall_app. split; [done|]. apply Forall_singleton. simpl.
        by rewrite !field_insert_ne. }
    by destruct write_ok.
  - unfold deleteProduct, try_catch, bind, gets, modify, saveDatabase;
      simpl.
    destruct (JSMap.get id (products st)); simpl; [|done].
    assert (Hhard : well_keyed (JSMap.delete id (products st))).
    { unfold JSMap.delete. split.
      - eapply sublist_NoDup; [exact Hnodup|].
        apply fmap_sublist, sublist_filter.
      - apply Forall_forall. intros e He.
        apply list_elem_of_filter in He as [_ He].
        by apply (proj1 (Forall_forall _ _) Hkeys). }
    assert (Hsoft : well_keyed
              (JSMap.mutate
                 (λ product,
                    <["updatedAt" := VStr updated]>
                      (<["deletedAt" := VStr deleted]>
                         (<["status" := VStr "inactive"]> product)))
                 id (products st))).
    { split; [by rewrite keys_mutate|].
      apply Forall_mutate; [|done]. simpl. intros v Hv.
      by rewrite !field_insert_ne. }
    by destruct hardDelete, write_ok.
  - intros Hid.
    unfold updateProduct, try_catch, bind, gets, modify, saveDatabase;
      simpl.
    destruct (JSMap.get id (products st)); simpl; [|done].
    assert (Hupd : well_keyed
              (JSMap.mutate
                 (λ product, <["updatedAt" := VStr updated]>
                               (assign product updates))
                 id (products st))).
    { split; [by rewrite keys_mutate|].
      apply Forall_mutate; [|done]. simpl. intros v Hv.
      rewrite field_insert_ne by done. rewrite <- Hv.
      unfold field, assign. by rewrite lookup_union, Hid, (left_id None _). }
    by destruct write_ok.
Qed.

End StoreReload.
(** ** The preview cache, further *)

Section CacheKeys.

Import PreviewCache.

Context {E : Type}.


(** X12. A write to the cache reaches the reads whose key is the same
    string, and no other: such a read gives the new email, for an hour
    from the write on, and any other read gives what it gave before. *)
Theorem cache_write_reaches_equal_keys (c p c' p' : val) (e : E)
    (t_set t_get : Z) (emailPreviewCache : gmap string (entry E)) :
  getCachedEmail t_get c' p' (setCachedEmail t_set c p e emailPreviewCache)
  = if decide (getCacheKey c' p' = getCacheKey c p)
    then (if t_get - t_set <? 60 * 60 * 1000 then Some e else None)
    else getCachedEmail t_get c' p' emailPreviewCache.
Proof.
  unfold getCachedEmail, setCachedEmail.
  destruct (decide (getCacheKey c' p' = getCacheKey c p)) as [->|Hne].
  - by rewrite lookup_insert_eq.
  - by rewrite lookup_insert_ne.
Qed.


End CacheKeys.
(** ** Sessions and the guard *)

Section GuardFacts.

Import Server Vocabulary.

Implicit Types (s : session) (path : string) (history : list request).

Lemma prefix_cons_inv (a : Ascii.ascii) (t path : string) :
  String.prefix (String a t) path = true →
  ∃ rest, path = String a rest ∧ String.prefix t rest = true.
Proof.
  destruct path as [|b rest]; simpl; [done|].
  destruct (Ascii.ascii_dec a b) as [->|_]; [|done]. by exists rest.
Qed.

(** X14. Without an authenticated session, a request under [/api/],
    other than to the tracking route, is stopped by the guard with
    status 401, and a request to a page that is not public is sent to
    the login form; with an authenticated session every request goes
    through. *)
Theorem guard_stops_the_unauthenticated s path :
  (truthy (authenticated s) = true → guard s path = Next)
  ∧ (truthy (authenticated s) = false →
     String.prefix "/api/" path = true →
     String.prefix "/api/track-offer-acceptance" path = false →
     guard s path = Unauthorized)
  ∧ (truthy (authenticated s) = false →
     skips_authentication path = false →
     String.prefix "/api/" path = false →
     guard s path = Redirect "/login").
Proof.
  unfold guard, requireAuth. split; [|split].
  - intros ->. by destruct (skips_authentication path).
  - intros -> Hapi Htrack.
    assert (Hskip : skips_authentication path = false).
    { unfold skips_authentication. rewrite Htrack.
      do 5 (apply prefix_cons_inv in Hapi as (? & -> & Hapi)).
      reflexivity. }
    by rewrite Hskip, Hapi.
  - by intros -> -> ->.
Qed.

Lemma session_after_snoc pw history r :
  session_after pw (history ++ [r])
  = (serve pw (session_after pw history) r).1.
Proof. unfold session_after. by rewrite foldl_snoc. Qed.

(** The history has a login with the credentials of the server that
    no logout has followed. *)
#[local] Abbreviation opened ADMIN_PASSWORD history :=
  (∃ before after,
     history
     = before ++ PostLogin (VStr "admin") (VStr ADMIN_PASSWORD) :: after
     ∧ PostLogout true ∉ after).

Lemma opened_snoc pw history r :
  r ≠ PostLogout true → r ≠ PostLogin (VStr "admin") (VStr pw) →
  opened pw (history ++ [r]) ↔ opened pw history.
Proof.
  intros Hout Hin. split.
  - intros (before & after & Heq & Hafter).
    destruct after as [|r' after _] using rev_ind.
    { apply app_inj_tail in Heq as [_ ->]. done. }
    rewrite app_comm_cons, app_assoc in Heq.
    apply app_inj_tail in Heq as [-> _].
    exists before, after. split; [done|].
    intros Hr. apply Hafter. apply elem_of_app. by left.
  - intros (before & after & -> & Hafter).
    exists before, (after ++ [r]). split; [by rewrite <- app_assoc|].
    rewrite elem_of_app, list_elem_of_singleton. by intros [?|?].
Qed.

(** X15. A session is authenticated exactly when its history has a
    login with the name [admin] and the password of the server that no
    logout has followed: no other request opens a session, and only a
    logout that destroys the session closes it. *)
Theorem session_is_authenticated_iff (ADMIN_PASSWORD : string) history :
  truthy (authenticated (session_after ADMIN_PASSWORD history)) = true
  ↔ ∃ before after,
      history
      = before ++ PostLogin (VStr "admin") (VStr ADMIN_PASSWORD) :: after
      ∧ PostLogout true ∉ after.
Proof.
  induction history as [|r history IH] using rev_ind.
  - split; [done|]. intros (before & after & Heq & _).
    by destruct before.
  - rewrite session_after_snoc.
    destruct (decide (r = PostLogin (VStr "admin") (VStr ADMIN_PASSWORD)))
      as [->|Hlogin].
    { simpl. unfold login. rewrite !bool_decide_eq_true_2 by done. simpl.
      split; [intros _|done].
      exists history, []. split; [done|]. apply not_elem_of_nil. }
    destruct (decide (r = PostLogout true)) as [->|Hlogout].
    { simpl. split; [done|]. intros (before & after & Heq & Hafter).
      destruct after as [|r' after _] using rev_ind.
      { by apply app_inj_tail in Heq as [_ [=]]. }
      rewrite app_comm_cons, app_assoc in Heq.
      apply app_inj_tail in Heq as [_ <-].
      exfalso. apply Hafter. apply elem_of_app. right.
      apply list_elem_of_here. }
    rewrite opened_snoc by done. rewrite <- IH.
    destruct r as [username password|[|]|path]; simpl; [|done..].
    unfold login.
    destruct (bool_decide_reflect (username = VStr "admin")) as [->|];
      [|done].
    destruct (bool_decide_reflect (password = VStr ADMIN_PASSWORD))
      as [->|]; done.
Qed.

End GuardFacts.
(** ** The matcher, further *)

Section PipelineFacts.

Import Matcher Vocabulary.

Context {W : Type} (svc : services W) `{Texts}.

Lemma pauses_app t1 t2 : pauses (t1 ++ t2) = pauses t1 ++ pauses t2.
Proof. apply omap_app. Qed.

Lemma sends_app t1 t2 : sends (t1 ++ t2) = sends t1 ++ sends t2.
Proof. apply omap_app. Qed.


(** What one turn of [matchCustomersToProducts] leaves, with its
    pause. *)
Lemma match_turn_paused products (c : customer) (st : frame W Match) :
  ∃ st' m evs,
    try_catch
      (let* match_ := matchSingleCustomer svc c products in
       do* push match_ in
       wait svc 1000)
      (λ error, push (failed_match c error)) st = (st', Normal tt)
    ∧ grows st st' [m] evs
    ∧ m_customer m = c
    ∧ customers_asked evs = [c]
    ∧ pauses evs = (if m_success m then [1000] else [])
    ∧ batches_sent evs = [] ∧ sends evs = []
    ∧ Forall (λ ev, ¬ ∃ m', generation_call m' ev) evs.
Proof.
  unfold try_catch, bind, matchSingleCustomer, try_catch, bind, call,
    lift, now, throw, push, modify, wait, ret, grows. simpl.
  destruct (chat_completion svc _ _) as [w1 [content|e]]; simpl.
  - destruct (parseRecommendation content) as [r|e] eqn:Hparse; simpl.
    + destruct (date_now svc w1) as [w2 t]. simpl.
      eexists _, _, _. split; [done|]. split.
      { split; [done|]. by rewrite <- app_assoc. }
      simpl. repeat split; try done.
      repeat constructor; by intros (? & [(? & ? & ?)|(? & ? & ?)]).
    + eexists _, _, _. split; [done|]. split; [done|].
      simpl. repeat split; try done.
      repeat constructor; by intros (? & [(? & ? & ?)|(? & ? & ?)]).
  - eexists _, _, _. split; [done|]. split; [done|].
    simpl. repeat split; try done.
    repeat constructor; by intros (? & [(? & ? & ?)|(? & ? & ?)]).
Qed.

(** The run of [matchCustomersToProducts], turn by turn. *)
Lemma matching_run (customers : list customer) (products : list obj)
    (e : env W) :
  ∃ e' matches evss,
    matchCustomersToProducts svc customers products e = (e', Normal matches)
    ∧ trace e' = trace e ++ concat evss
    ∧ Forall3 (λ c m evs,
        m_customer m = c
        ∧ customers_asked evs = [c]
        ∧ pauses evs = (if m_success m then [1000] else [])
        ∧ batches_sent evs = [] ∧ sends evs = []
        ∧ Forall (λ ev, ¬ ∃ m', generation_call m' ev) evs)
        customers matches evss.
Proof.
  unfold matchCustomersToProducts.
  set (st0 := {| outside := e; array := [] |} : frame W Match).
  destruct (for_of_collect
              (λ c m evs,
                 m_customer m = c
                 ∧ customers_asked evs = [c]
                 ∧ pauses evs = (if m_success m then [1000] else [])
                 ∧ batches_sent evs = [] ∧ sends evs = []
                 ∧ Forall (λ ev, ¬ ∃ m', generation_call m' ev) evs)
              (λ c, try_catch
                 (let* match_ := matchSingleCustomer svc c products in
                  do* push match_ in
                  wait svc 1000)
                 (λ error, push (failed_match c error)))
              customers (match_turn_paused products) st0)
    as (st1 & ms & evss & Hrun & [Harr Htr] & HF).
  exists (outside st1), ms, evss. simpl in *.
  split; [|done].
  apply method_run. fold st0.
  rewrite (bind_normal _ _ _ _ _ Hrun). unfold gets. by rewrite Harr.
Qed.

(** X16. [matchCustomersToProducts] pauses for a second after each
    customer it has matched, the last one too, and not after a failure:
    there are as many pauses as matches that succeeded, and no message
    is sent while matching. *)
Theorem matching_pauses_after_each_success (customers : list customer)
    (products : list obj) (e : env W) :
  ∃ e' matches evs,
    matchCustomersToProducts svc customers products e = (e', Normal matches)
    ∧ trace e' = trace e ++ evs
    ∧ pauses evs
      = replicate (length (filter (λ m, m_success m = true) matches)) 1000
    ∧ batches_sent evs = [] ∧ sends evs = [].
Proof.
  destruct (matching_run customers products e)
    as (e' & matches & evss & Hrun & Htr & HF).
  exists e', matches, (concat evss). split; [done|]. split; [done|].
  clear Hrun Htr.
  induction HF as [|c m evs cs ms evss (_ & _ & Hp & Hb & Hs & _) _ IH];
    [done|].
  destruct IH as (IH1 & IH2 & IH3). cbn [concat].
  rewrite pauses_app, batches_sent_app, sends_app, Hp, Hb, Hs, IH1, IH2, IH3.
  rewrite filter_cons. split; [|done].
  destruct (m_success m); by destruct (decide _).
Qed.

(** *** Generation *)

Lemma generation_calls_only evs :
  Forall (λ ev, ∃ m, generation_call m ev) evs →
  batches_sent evs = [] ∧ sends evs = [] ∧ pauses evs = []
  ∧ customers_asked evs = [].
Proof.
  induction 1 as [|ev evs Hev _ IH]; [done|].
  destruct Hev as (m & [(? & ? & ->)|(? & ? & ->)]); simpl; exact IH.
Qed.

(** X17. [generatePersonalizedEmails] never throws and returns one
    email per match, in the order of the matches and each for the
    customer of its match: a failed match gives the failed email with
    the error of the match, and an email that is a success carries its
    match.  Nothing is sent and no pause is taken while generating. *)
Theorem generation_keeps_every_match (matches : list Match) (e : env W) :
  ∃ e' emails evs,
    generatePersonalizedEmails svc matches e = (e', Normal emails)
    ∧ trace e' = trace e ++ evs
    ∧ e_customer <$> emails = m_customer <$> matches
    ∧ Forall2 (λ m em,
        if m_success m
        then e_success em = true → e_match em = Some m
        else em = FailedEmail (m_customer m) (m_error m)) matches emails
    ∧ batches_sent evs = [] ∧ sends evs = [] ∧ pauses evs = [].
Proof.
  destruct (generation_run svc matches e)
    as (e' & emails & evss & Hrun & Htr & HF).
  exists e', emails, (concat evss). split; [done|]. split; [done|].
  clear Hrun Htr.
  induction HF as [|m em evs ms ems evss [Hc Hm] _ IH].
  { repeat split; constructor. }
  destruct IH as (IH1 & IH2 & IH3 & IH4 & IH5). cbn [concat].
  rewrite batches_sent_app, sends_app, pauses_app, IH3, IH4, IH5.
  assert (Hquiet : batches_sent evs = [] ∧ sends evs = []
                   ∧ pauses evs = []).
  { destruct (m_success m).
    - destruct Hm as [Hev _].
      destruct (generation_calls_only evs) as (? & ? & ? & _); [|done].
      eapply Forall_impl; [exact Hev|]. intros ev Hev'. by exists m.
    - by destruct Hm as [-> _]. }
  destruct Hquiet as (-> & -> & ->).
  split; [rewrite !fmap_cons; by rewrite Hc, IH1|]. split; [|done].
  constructor; [|done].
  destruct (m_success m); [|by destruct Hm]. intros Hs. by apply Hm.
Qed.





(** *** Sending *)

(** X19. When no email was generated, [sendEmails] makes no call and
    takes no turn, whatever the batch size: it returns at once the
    failure of every email, in order, and leaves the world as it is. *)
Theorem nothing_to_send_makes_no_call (fuel : nat) (emails : list email)
    (options : send_options) (e : env W) :
  Forall (λ em, e_success em = false) emails →
  sendEmails svc fuel emails options e
  = (e, Normal (Some (generation_failure <$> emails))).
Proof.
  intros Hfailed. unfold sendEmails.
  assert (Hvalid : filter (λ em, e_success em = true) emails = []).
  { apply filter_none. eapply Forall_impl; [exact Hfailed|].
    intros em ->. done. }
  assert (Hinvalid : filter (λ em, e_success em ≠ true) emails = emails).
  { apply filter_all. eapply Forall_impl; [exact Hfailed|].
    intros em ->. done. }
  rewrite Hvalid, Hinvalid. simpl.
  apply method_run with
    (st' := {| outside := e; array := generation_failure <$> emails |}).
  rewrite (bind_normal _ _ _ _ _
             (forEach_push generation_failure emails
                {| outside := e; array := [] |})).
  done.
Qed.

End PipelineFacts.

Section ReplyFacts.

Import Matcher Vocabulary.

Context {W : Type} (svc : services W) `{Texts}.

Lemma forEach_from_app {S A} (body : A → nat → M S unit) (xs ys : list A)
    index (st : S) :
  forEach_from index (xs ++ ys) body st
  = bind (forEach_from index xs body)
      (λ _, forEach_from (index + length xs) ys body) st.
Proof.
  revert index st. induction xs as [|x xs IH]; intros index st; simpl.
  - unfold bind, ret. by rewrite Nat.add_0_r.
  - unfold bind. destruct (body x index st) as [st1 [[]|err]]; [|done].
    rewrite IH. unfold bind. by rewrite Nat.add_succ_r.
Qed.

(** X20. A reply of the mail service that does not have one entry per
    message is taken as it comes.  When it has fewer entries than the
    batch has emails, the first emails are reported and the others are
    left without a result; when it has more, every email of the batch
    is reported twice: by its entry, and then as failed, since the
    first entry in excess makes the turn throw. *)
Theorem reply_length_mismatch (from : string) (bs : Z)
    (validEmails : list email) (i : Z) (st : frame W result)
    (payloads : list payload) (w' : W)
    (data : list (option email_result)) :
  let batch := slice validEmails i (i + bs) in
  Forall well_generated batch →
  map_throwing
    (λ email, make_payload from (field (e_customer email) "email") email)
    batch = Normal payloads →
  batch_send svc payloads (world (outside st))
  = (w', Normal (BatchData data)) →
  ∃ st' xs,
    send_batch svc from bs validEmails i st = (st', Normal tt)
    ∧ array st' = array st ++ xs
    ∧ ((length data ≤ length batch)%nat →
       Forall3 entry_reported (take (length data) batch) data xs)
    ∧ ((length batch < length data)%nat →
       ∃ reports,
         xs = reports
              ++ (failed_result
                    "Cannot read properties of undefined (reading 'customer')"
                  <$> batch)
         ∧ Forall3 entry_reported batch (take (length batch) data)
             reports).
Proof.
  intros batch Hwg Hpay Hsend. unfold send_batch. fold batch.
  rewrite Hpay. unfold try_catch, bind at 1, lift.
  unfold bind at 1, call. rewrite Hsend.
  set (st1 := {| outside := {| world := w';
                   trace := trace (outside st)
                            ++ [EvBatchSend batch payloads
                                  (Normal (BatchData data))] |};
                 array := array st |}).
  change (forEach data (process_entry svc batch))
    with (forEach_from 0 data (process_entry svc batch)).
  destruct (le_lt_dec (length data) (length batch)) as [Hle|Hlt].
  - destruct (process_entries svc batch data 0%nat st1 Hwg ltac:(lia))
      as (st2 & xs & Hrun & [Harr _] & HF).
    rewrite drop_0 in HF.
    rewrite (bind_normal _ _ _ _ _ Hrun).
    exists (when_ (i + bs <? Z.of_nat (length validEmails)) (wait svc 1000)
              st2).1, xs.
    split; [|split; [|split; [done|lia]]].
    + unfold when_. by destruct (_ <? _).
    + unfold when_. by destruct (_ <? _).
  - destruct (process_entries svc batch (take (length batch) data) 0%nat
                st1 Hwg) as (st2 & reports & Hrun & [Harr _] & HF).
    { rewrite length_take_le by lia. lia. }
    rewrite length_take_le, drop_0, firstn_all in HF by lia.
    assert (Hthrows :
      forEach_from 0 data (process_entry svc batch) st1
      = (st2,
         Throw "Cannot read properties of undefined (reading 'customer')")).
    { rewrite <- (take_drop (length batch) data) at 1.
      rewrite forEach_from_app. rewrite length_take_le by lia. simpl.
      rewrite (bind_normal _ _ _ _ _ Hrun).
      destruct (drop (length batch) data) as [|entry rest] eqn:Hdrop.
      { apply (f_equal length) in Hdrop. rewrite length_drop in Hdrop.
        simpl in Hdrop. lia. }
      simpl. unfold bind at 1, process_entry.
      by rewrite (lookup_ge_None_2 batch (length batch)) by lia. }
    unfold bind at 1. rewrite Hthrows.
    eexists _, _. split.
    { apply (forEach_push
               (failed_result
                  "Cannot read properties of undefined (reading 'customer')")
               batch st2). }
    simpl. rewrite Harr. simpl.
    split; [by rewrite <- app_assoc|]. split; [lia|].
    intros _. by exists reports.
Qed.

End ReplyFacts.
(** ** The complete workflow *)

Section WorkflowFacts.

Import Matcher Vocabulary.

Context {W : Type} (svc : services W) `{Texts}.






End WorkflowFacts.
(** ** The sending and preview endpoints *)

Section EndpointFacts.

Import Matcher Server Vocabulary.

Context {W : Type} (svc : services W) `{Texts} `{Builtins}.




End EndpointFacts.

Section IndividualFacts.

Import Matcher Server Vocabulary.

Context {W : Type} (svc : services W) `{Texts} `{Builtins}.





End IndividualFacts.

Section PreviewFacts.

Import Matcher Server Vocabulary.

Context {W : Type} (svc : services W) `{Texts} `{Builtins}.

(** X24. A preview that was generated is then served from the cache:
    when [POST /api/ai/preview-email] has answered with a new email
    for a match, the email is in the cache, and a later request for
    that match, as long as the entry is there and the clock reads less
    than an hour more, is answered with that same email, marked
    [cached], without a call to the model or to the template engine
    and without a change to the cache. *)
Theorem preview_is_served_from_cache (m : Match) (st st1 : app)
    (em : email) :
  previewEmail svc (Some m) st = (st1, Normal (Preview em false)) →
  ∃ key t1,
    emailPreviewCache st1 !! key
    = Some {| PreviewCache.email := em; PreviewCache.timestamp := t1 |}
    ∧ ∀ (st2 : app) w2 t2,
        emailPreviewCache st2 !! key = emailPreviewCache st1 !! key →
        date_now svc (world (a_outside st2)) = (w2, t2) →
        t2 - t1 < 60 * 60 * 1000 →
        previewEmail svc (Some m) st2
        = ({| a_outside := {| world := w2; trace := trace (a_outside st2) |};
              emailPreviewCache := emailPreviewCache st2 |},
           Normal (Preview em true)).
Proof.
  unfold previewEmail.
  destruct (m_recommendation m) as [recommendation|];
    [|unfold try_catch, ret; simpl; intros [= ]].
  destruct (rec_recommendedProduct recommendation) as [rp|];
    [|unfold try_catch, bind, lift, ret; simpl; intros [= ]].
  cbv zeta.
  set (key := PreviewCache.getCacheKey
                (or_else (field (m_customer m) "id")
                   (field (m_customer m) "email"))
                (or_else (Matcher.productId rp) (productName rp))).
  intros Hfirst.
  assert (Hcached : ∃ t1,
    emailPreviewCache st1 !! key
    = Some {| PreviewCache.email := em; PreviewCache.timestamp := t1 |}).
  { revert Hfirst.
    unfold try_catch, bind at 1, lift. unfold bind at 1.
    unfold cachedEmail, bind at 1, gets. fold key.
    destruct (emailPreviewCache st !! key) as [entry|] eqn:Hentry.
    - unfold bind at 1, clock.
      destruct (date_now svc (world (a_outside st))) as [w0 t0].
      unfold ret at 1. unfold PreviewCache.getCachedEmail. fold key.
      cbn [emailPreviewCache]. rewrite Hentry.
      destruct (t0 - PreviewCache.timestamp entry <? 60 * 60 * 1000).
      { unfold ret. intros [= ]. }
      unfold bind at 1, on_outside. cbn [a_outside emailPreviewCache].
      destruct (generatePersonalizedEmails svc [m] _) as [e2 [emails|err]];
        [|unfold ret; intros [= ]].
      destruct emails as [|generatedEmail emails];
        [unfold ret; intros [= ]|].
      destruct (e_success generatedEmail); [|unfold ret; intros [= ]].
      unfold bind at 1, cacheEmail, bind at 1, clock.
      cbn [a_outside emailPreviewCache world trace].
      destruct (date_now svc (world e2)) as [w3 t3].
      unfold modify, ret. cbn [a_outside emailPreviewCache].
      intros [= <- <-]. exists t3. cbn [emailPreviewCache].
      unfold PreviewCache.setCachedEmail. fold key.
      apply lookup_insert_eq.
    - unfold ret at 1.
      unfold bind at 1, on_outside. cbn [a_outside emailPreviewCache].
      destruct (generatePersonalizedEmails svc [m] _) as [e2 [emails|err]];
        [|unfold ret; intros [= ]].
      destruct emails as [|generatedEmail emails];
        [unfold ret; intros [= ]|].
      destruct (e_success generatedEmail); [|unfold ret; intros [= ]].
      unfold bind at 1, cacheEmail, bind at 1, clock.
      cbn [a_outside emailPreviewCache world trace].
      destruct (date_now svc (world e2)) as [w3 t3].
      unfold modify, ret. cbn [a_outside emailPreviewCache].
      intros [= <- <-]. exists t3. cbn [emailPreviewCache].
      unfold PreviewCache.setCachedEmail. fold key.
      apply lookup_insert_eq. }
  destruct Hcached as [t1 Hcached]. exists key, t1. split; [done|].
  intros st2 w2 t2 Hsame Hnow Hage. rewrite Hcached in Hsame.
  unfold try_catch, bind at 1, lift. unfold bind at 1.
  unfold cachedEmail, bind at 1, gets. fold key. rewrite Hsame.
  unfold bind at 1, clock. rewrite Hnow.
  unfold ret at 1. unfold PreviewCache.getCachedEmail. fold key.
  cbn [emailPreviewCache]. rewrite Hsame.
  cbn [PreviewCache.timestamp PreviewCache.email].
  rewrite (proj2 (Z.ltb_lt _ _) Hage). reflexivity.
Qed.

End PreviewFacts.
(** ** What is sent, and what cannot be written *)

Section MessageFacts.

Import Matcher Vocabulary.

Context {W : Type} (svc : services W) `{Texts}.

Lemma map_throwing_Forall2 {A B} (f : A → completion B) xs ys :
  map_throwing f xs = Normal ys → Forall2 (λ x y, f x = Normal y) xs ys.
Proof.
  revert ys. induction xs as [|x xs IH]; simpl; intros ys.
  - intros [= <-]. constructor.
  - destruct (f x) as [y|] eqn:Hx; [|done].
    destruct (map_throwing f xs) as [ys'|]; [|done].
    intros [= <-]. constructor; [done|by apply IH].
Qed.

(** What one turn of the loop of [sendEmails] hands to the mail
    service: the messages made from the emails of its chunk. *)
Lemma send_turn_messages from bs (validEmails : list email) i
    (st : frame W result) :
  Forall (λ e, e_success e = true) validEmails →
  ∃ st' xs evs,
    send_batch svc from bs validEmails i st = (st', Normal tt)
    ∧ grows st st' xs evs
    ∧ ∃ payloads reply sleeps,
        evs = EvBatchSend (slice validEmails i (i + bs)) payloads reply
              :: sleeps
        ∧ batches_sent sleeps = []
        ∧ map_throwing
            (λ email,
               make_payload from (field (e_customer email) "email") email)
            (slice validEmails i (i + bs)) = Normal payloads.
Proof.
  intros Hvalid.
  destruct (send_turn svc from bs validEmails i st Hvalid)
    as (st' & xs & evs & Hrun & Hg & Hturn).
  exists st', xs, evs. split; [done|]. split; [done|].
  set (batch := slice validEmails i (i + bs)) in *.
  destruct (payloads_ok from batch) as (payloads & Hpay & Hlen).
  { by apply slice_Forall. }
  destruct Hturn as (payloads' & reply & sleeps & w & w' & -> & Hsl & _).
  assert (Hfirst : ∃ reply' rest,
    trace (outside st')
    = trace (outside st) ++ EvBatchSend batch payloads reply' :: rest).
  { revert Hrun. unfold send_batch. fold batch. rewrite Hpay.
    unfold try_catch, bind at 1, lift. unfold bind at 1, call.
    destruct (batch_send svc payloads (world (outside st)))
      as [w1 reply'].
    set (st1 := {| outside := {| world := w1;
                     trace := trace (outside st)
                              ++ [EvBatchSend batch payloads reply'] |};
                   array := array st |}).
    assert (Hhandler : ∀ (st2 : frame W result) message rest,
      trace (outside st2) = trace (outside st1) ++ rest →
      forEach batch (λ email _,
        push (NotSent (e_customer email)
                (VStr ("Batch send failed: " +:+ message)) None)) st2
      = (st', Normal tt) →
      ∃ reply'' rest',
        trace (outside st')
        = trace (outside st) ++ EvBatchSend batch payloads reply'' :: rest').
    { intros st2 message rest Htr2 Hh.
      pose proof (eq_trans (eq_sym Hh)
                    (forEach_push (failed_result message) batch st2))
        as Heq.
      injection Heq as ->. simpl. rewrite Htr2. simpl.
      rewrite <- app_assoc. by eexists _, _. }
    destruct reply' as [[data|message|type_]|message]; simpl.
    - destruct (process_entries_any svc batch data 0%nat st1)
        as (xs1 & _ & Htr1).
      change (forEach data (process_entry svc batch))
        with (forEach_from 0 data (process_entry svc batch)).
      unfold bind at 1.
      destruct (forEach_from 0 data (process_entry svc batch) st1)
        as [st2 [[]|err]]; simpl in Htr1.
      + unfold when_. destruct (_ <? _); unfold wait, ret;
          intros [= <-]; simpl; rewrite Htr1; simpl;
          rewrite <- !app_assoc; by eexists _, _.
      + apply (Hhandler st2 err []). by rewrite Htr1.
    - apply (Hhandler st1 _ []). by rewrite app_nil_r.
    - apply (Hhandler st1 _ []). by rewrite app_nil_r.
    - apply (Hhandler st1 _ []). by rewrite app_nil_r. }
  destruct Hfirst as (reply' & rest & Hfirst).
  destruct Hg as [_ Htr]. rewrite Htr in Hfirst.
  apply app_inv_head in Hfirst. injection Hfirst as -> _ _.
  exists payloads, reply, sleeps. split; [done|].
  split; [by apply batches_sent_sleeps|done].
Qed.

Lemma made_payload from (em : email) p :
  make_payload from (field (e_customer em) "email") em = Normal p →
  p_from p = from
  ∧ p_to p = [field (e_customer em) "email"]
  ∧ p_subject p = e_subject em
  ∧ p_x_customer_id p = or_else (field (e_customer em) "id") (VStr "unknown").
Proof. destruct em; [|done]. by intros [= <-]. Qed.

(** X26. Every message [sendEmails] hands to the mail service is made
    from the email at the same place of its chunk: it goes to the
    [email] of the customer of that email — there is no address made
    up when the customer has none —, carries its subject and the id
    of its customer, and comes from the name of the options, or
    ['🏦 Customer Bank'], at [no-reply@customerbank.com]. *)
Theorem every_message_is_for_its_customer (fuel : nat)
    (emails : list email) (options : send_options) (e : env W) :
  0 < batchSize_or_default options →
  (length emails ≤ fuel)%nat →
  ∃ e' results evs,
    sendEmails svc fuel emails options e = (e', Normal (Some results))
    ∧ trace e' = trace e ++ evs
    ∧ ∀ batch payloads reply,
        EvBatchSend batch payloads reply ∈ evs →
        batch ∈ chunks (batchSize_or_default options)
                  (filter (λ em, e_success em = true) emails)
        ∧ Forall2 (λ em p,
            p_from p
            = to_string (or_else (fromName options)
                           (VStr "🏦 Customer Bank"))
              +:+ " <no-reply@customerbank.com>"
            ∧ p_to p = [field (e_customer em) "email"]
            ∧ p_subject p = e_subject em
            ∧ p_x_customer_id p
              = or_else (field (e_customer em) "id") (VStr "unknown"))
            batch payloads.
Proof.
  intros Hbs Hfuel.
  pose proof (fuel_for_valid fuel emails _ Hbs Hfuel) as Hturns.
  unfold sendEmails.
  set (validEmails := filter (λ email, e_success email = true) emails) in *.
  set (failedEmails := filter (λ email, e_success email ≠ true) emails).
  set (bs := batchSize_or_default options) in *.
  set (st0 := {| outside := e; array := [] |} : frame W result).
  set (st1 := {| outside := e;
                 array := generation_failure <$> failedEmails |}
              : frame W result).
  assert (Hfailed :
    forEach failedEmails (λ email _,
      push (NotSent (e_customer email)
              (or_else (e_error email) (VStr "Email generation failed"))
              None)) st0 = (st1, Normal tt)).
  { apply (forEach_push generation_failure failedEmails st0). }
  assert (Hvalid : Forall (λ e, e_success e = true) validEmails).
  { apply Forall_forall. intros em Hem.
    by apply list_elem_of_filter in Hem as [? _]. }
  destruct (Nat.eqb_spec (length validEmails) 0) as [Hnone|Hsome].
  - exists e, (generation_failure <$> failedEmails), []. split.
    + apply (method_run _ e st1). fold st0.
      by rewrite (bind_normal _ _ _ _ _ Hfailed).
    + split; [by rewrite app_nil_r|].
      intros batch payloads reply Hin. by apply elem_of_nil in Hin.
  - set (from := to_string (or_else (fromName options)
                              (VStr "🏦 Customer Bank"))
                 +:+ " <" +:+ "no-reply@customerbank.com" +:+ ">").
    pose proof (for_loop_turns (send_batch svc from bs validEmails) fuel 0
                  (Z.of_nat (length validEmails)) bs st1 Hbs) as Hloop.
    rewrite Z.sub_0_r in Hloop.
    specialize (Hloop
      (λ i st, match send_turn svc from bs validEmails i st Hvalid with
               | ex_intro _ _ (ex_intro _ _ (ex_intro _ _
                   (conj Hrun _))) => f_equal snd Hrun
               end) Hturns).
    destruct (run_turns_collect
                (λ i (_ : list result) evs,
                   ∃ payloads reply sleeps,
                     evs = EvBatchSend (slice validEmails i (i + bs))
                             payloads reply :: sleeps
                     ∧ batches_sent sleeps = []
                     ∧ map_throwing
                         (λ email,
                            make_payload from
                              (field (e_customer email) "email") email)
                         (slice validEmails i (i + bs)) = Normal payloads)
                (send_batch svc from bs validEmails)
                (turns (Z.to_nat
                   (ceil_div (Z.of_nat (length validEmails)) bs)) 0 bs)
                (λ i st, send_turn_messages from bs validEmails i st Hvalid)
                st1)
      as (xss & evss & [Harr Htr] & HF).
    eexists _, _, (concat evss).
    split; [|split; [exact Htr|]].
    + apply method_run. fold st0.
      rewrite (bind_normal _ _ _ _ _ Hfailed).
      fold from. rewrite (bind_normal _ _ _ _ _ Hloop).
      unfold bind, gets, ret. simpl. by rewrite Harr.
    + intros batch payloads reply Hin.
      apply Forall3_fmap_l
        with (f := λ i, slice validEmails i (i + bs))
             (P := λ chunk (_ : list result) evs,
                ∃ payloads reply sleeps,
                  evs = EvBatchSend chunk payloads reply :: sleeps
                  ∧ batches_sent sleeps = []
                  ∧ map_throwing
                      (λ email,
                         make_payload from
                           (field (e_customer email) "email") email)
                      chunk = Normal payloads) in HF.
      rewrite <- (Z.sub_0_r (Z.of_nat (length validEmails))) in HF.
      rewrite (slices_chunks validEmails bs Hbs) in HF.
      clear -HF Hin.
      induction HF as [|chunk xs evs chunks xss evss Hturn _ IH].
      { by apply elem_of_nil in Hin. }
      cbn [concat] in Hin. apply elem_of_app in Hin as [Hin|Hin].
      * destruct Hturn as (payloads' & reply' & sleeps & -> & Hsl & Hpay).
        apply elem_of_cons in Hin as [[= -> -> ->]|Hin].
        -- split; [apply list_elem_of_here|].
           apply map_throwing_Forall2 in Hpay.
           eapply Forall2_impl; [exact Hpay|].
           intros em p Hp. by apply made_payload in Hp.
        -- exfalso. clear -Hin Hsl.
           induction sleeps as [|ev sleeps IH]; [by apply elem_of_nil in Hin|].
           apply elem_of_cons in Hin as [<-|Hin]; [done|].
           apply IH; [|done]. by destruct ev.
      * destruct (IH Hin) as [Hchunk Hmsgs].
        split; [by apply list_elem_of_further|done].
Qed.

End MessageFacts.

Section DetailFacts.

Import Matcher Vocabulary.

Context {W : Type} (svc : services W) `{Texts}.

Lemma personalize_throws {L} (m : Match) (st : frame W L) message :
  buildPersonalizedProductDetails m = Throw message →
  ∃ st' error,
    personalize svc m st = (st', Throw error) ∧ array st' = array st.
Proof.
  intros Hdetails. unfold personalize, bind at 1, lift.
  destruct (recommended_of m) as [rp|error]; [|by eexists _, _].
  unfold bind at 1. rewrite Hdetails. by eexists _, _.
Qed.

Lemma fallback_without_details (m : Match) (st : frame W email) message :
  buildPersonalizedProductDetails m = Throw message →
  ∃ st' error,
    try_catch
      (let* personalizedProduct := personalize svc m in
       let* emailContent :=
         call (EvTemplateCall m personalizedProduct)
           (generateEmail svc (m_customer m) personalizedProduct) in
       let* recommendation := lift (recommendation_of m) in
       push (GeneratedEmail (m_customer m) m
               (rec_emailSubject recommendation) emailContent
               personalizedProduct VUndef false true))
      (λ fallbackError,
         push (FailedEmail (m_customer m) (VStr fallbackError))) st
    = (st', Normal tt)
    ∧ array st' = array st ++ [FailedEmail (m_customer m) (VStr error)].
Proof.
  intros Hdetails. unfold try_catch, bind at 1.
  destruct (personalize_throws m st message Hdetails)
    as (st1 & error & -> & Harr).
  unfold push, modify. eexists _, error. split; [done|]. simpl.
  by rewrite Harr.
Qed.

Lemma turn_without_details (m : Match) (st : frame W email) message :
  m_success m = true →
  buildPersonalizedProductDetails m = Throw message →
  ∃ st' error,
    generate_step svc m st = (st', Normal tt)
    ∧ array st' = array st ++ [FailedEmail (m_customer m) (VStr error)].
Proof.
  intros Hsuccess Hdetails. unfold generate_step. rewrite Hsuccess. simpl.
  unfold try_catch at 1, bind at 1.
  destruct (quiet_run _ _ st (generateNudgeOptimizedEmail_quiet svc m))
    as (st1 & r1 & evs1 & -> & Harr1 & _).
  destruct r1 as [n|error1].
  - unfold bind at 1.
    destruct (personalize_throws m st1 message Hdetails)
      as (st2 & error2 & -> & Harr2).
    destruct (fallback_without_details m st2 message Hdetails)
      as (st3 & error & -> & Harr3).
    exists st3, error. split; [done|]. by rewrite Harr3, Harr2, Harr1.
  - destruct (fallback_without_details m st1 message Hdetails)
      as (st3 & error & -> & Harr3).
    exists st3, error. split; [done|]. by rewrite Harr3, Harr1.
Qed.

(** X27. A match whose recommendation does not have what the product
    details are written from — the recommended product, the
    personalization insights with their list of secondary benefits,
    the offer customization — never gets an email, whatever the model
    and the template engine answer: [generatePersonalizedEmails]
    returns for it a failed email, with the message of the error when
    the match had succeeded. *)
Theorem incomplete_recommendation_gets_no_email (matches : list Match)
    (e : env W) :
  ∃ e' emails,
    generatePersonalizedEmails svc matches e = (e', Normal emails)
    ∧ Forall2 (λ m em,
        (∃ message, buildPersonalizedProductDetails m = Throw message) →
        e_success em = false
        ∧ e_customer em = m_customer m
        ∧ (m_success m = true →
           ∃ error, em = FailedEmail (m_customer m) (VStr error)))
        matches emails.
Proof.
  unfold generatePersonalizedEmails.
  set (st0 := {| outside := e; array := [] |} : frame W email).
  destruct (for_of_collect
              (λ m em (_ : list event),
                 (∃ message,
                    buildPersonalizedProductDetails m = Throw message) →
                 e_success em = false
                 ∧ e_customer em = m_customer m
                 ∧ (m_success m = true →
                    ∃ error, em = FailedEmail (m_customer m) (VStr error)))
              (generate_step svc) matches) with (st := st0)
    as (st1 & emails & evss & Hrun & [Harr _] & HF).
  { intros m st.
    destruct (generate_turn svc m st)
      as (st' & em & evs & Hturn & Hg & Hc & Hgen).
    exists st', em, evs. split; [done|]. split; [done|].
    intros [message Hdetails].
    destruct (m_success m) eqn:Hsuccess.
    - destruct (turn_without_details m st message Hsuccess Hdetails)
        as (st'' & error & Hturn' & Harr').
      rewrite Hturn in Hturn'. injection Hturn' as <-.
      destruct Hg as [Harr _]. rewrite Harr in Harr'.
      apply app_inj_tail in Harr' as [_ ->].
      split; [done|]. split; [done|]. intros _. by exists error.
    - destruct Hgen as [_ ->]. split; [done|]. split; [done|]. done. }
  exists (outside st1), emails. split.
  { apply method_run. fold st0.
    rewrite (bind_normal _ _ _ _ _ Hrun). unfold gets. by rewrite Harr. }
  clear Hrun Harr.
  induction HF as [|m em evs ms ems evss Hm _ IH]; constructor; done.
Qed.

End DetailFacts.
(** ** The further properties at work on the sample data *)

Section MoreSamples.

Import ProductDatabase Matcher Server Vocabulary Examples.

#[local] Existing Instance plain_texts.
#[local] Existing Instance ascii_builtins.

Lemma update_merges_in_place_witness :
  getProduct (VStr "p1") one_store
  = Some (<["status" := VStr "active"]> loan)
  ∧ ∃ st1,
      updateProduct "t2" true (VStr "p1") {[ "name" := VStr "Home loan" ]}
        one_store = (st1, Normal true)
      ∧ (λ p, field p "name") <$> getProduct (VStr "p1") st1
        = Some (VStr "Home loan").
Proof.
  split; [reflexivity|].
  destruct (update_merges_in_place "t2" true (VStr "p1")
              {[ "name" := VStr "Home loan" ]}
              (<["status" := VStr "active"]> loan) one_store eq_refl)
    as (st1 & Hrun & Hget & _).
  exists st1. split; [exact Hrun|]. rewrite Hget. reflexivity.
Defined.

Lemma failed_write_is_not_rolled_back_witness :
  missing_required loan = false
  ∧ getProduct (field loan "id") empty_store = None
  ∧ ∃ st1 p,
      addProduct "t1" "t2" false loan empty_store = (st1, Normal false)
      ∧ getProduct (field loan "id") st1 = Some p
      ∧ addProduct "t3" "t4" true loan st1 = (st1, Normal false).
Proof.
  split; [reflexivity|]. split; [reflexivity|].
  destruct (failed_write_is_not_rolled_back "t1" "t2" loan empty_store
              eq_refl eq_refl) as (st1 & p & Hrun & Hget & _ & Hagain).
  exists st1, p. split; [exact Hrun|]. split; [exact Hget|].
  apply Hagain.
Defined.

Lemma listing_is_conjunction_of_filters_witness :
  truthy VUndef = false
  ∧ getProducts
      {| f_type := VStr "loan"; f_status := VStr "active";
         f_active := VUndef; f_search := VUndef |} one_store
    = Normal [<["status" := VStr "active"]> loan].
Proof.
  split; [reflexivity|].
  etrans.
  - apply (listing_is_conjunction_of_filters
             {| f_type := VStr "loan"; f_status := VStr "active";
                f_active := VUndef; f_search := VUndef |} one_store).
    reflexivity.
  - reflexivity.
Defined.

Lemma search_lists_mentions_witness :
  "car" ≠ ""
  ∧ Forall described (JSMap.values (products described_store))
  ∧ getProducts
      {| f_type := VUndef; f_status := VUndef; f_active := VUndef;
         f_search := VStr "car" |} described_store
    = Normal [car_loan].
Proof.
  assert (Hdescribed : Forall described [car_loan]).
  { apply Forall_singleton. eexists _, _. split; reflexivity. }
  split; [discriminate|]. split; [exact Hdescribed|].
  etrans.
  - apply (search_lists_mentions
             {| f_type := VUndef; f_status := VUndef; f_active := VUndef;
                f_search := VStr "car" |} described_store "car");
      [reflexivity|discriminate|exact Hdescribed].
  - reflexivity.
Defined.

Lemma search_throws_without_text_witness :
  "zzz" ≠ ""
  ∧ field (<["status" := VStr "active"]> loan) "description" = VUndef
  ∧ ∃ e, getProducts
           {| f_type := VUndef; f_status := VUndef; f_active := VUndef;
              f_search := VStr "zzz" |} one_store = Throw e.
Proof.
  split; [discriminate|]. split; [reflexivity|].
  apply (search_throws_without_text
           {| f_type := VUndef; f_status := VUndef; f_active := VUndef;
              f_search := VStr "zzz" |} one_store "zzz"
           (<["status" := VStr "active"]> loan)).
  - reflexivity.
  - discriminate.
  - apply list_elem_of_here.
  - split; [discriminate|]. split; [discriminate|]. by intros [].
  - intros name [= <-]. split; [reflexivity|]. discriminate.
Defined.

Lemma reload_restores_store_witness :
  well_keyed (products saved_store)
  ∧ document saved_store = Some (JSMap.values (products saved_store))
  ∧ new_ProductDatabase (Some [saved_loan]) true false
    = (saved_store, Normal tt).
Proof.
  assert (Hkeyed : well_keyed (products saved_store)).
  { split; [apply NoDup_singleton|]. apply Forall_singleton. reflexivity. }
  split; [exact Hkeyed|]. split; [reflexivity|].
  apply (reload_restores_store false saved_store Hkeyed eq_refl).
Defined.

Lemma operations_keep_store_well_keyed_witness :
  well_keyed (products empty_store)
  ∧ well_keyed (products (addProduct "t1" "t2" true loan empty_store).1).
Proof.
  assert (Hkeyed : well_keyed (products empty_store)).
  { split; [apply NoDup_nil_2|apply Forall_nil_2]. }
  split; [exact Hkeyed|].
  apply (operations_keep_store_well_keyed "t1" "t3" "t2" true false loan ∅
           (VStr "p1") empty_store Hkeyed).
Defined.



Lemma nothing_to_send_makes_no_call_witness :
  Forall (λ em, e_success em = false) [FailedEmail bob (VStr "boom")]
  ∧ sendEmails steady 0 [FailedEmail bob (VStr "boom")] backwards start
    = (start, Normal (Some [NotSent bob (VStr "boom") None])).
Proof.
  assert (Hfailed : Forall (λ em, e_success em = false)
                      [FailedEmail bob (VStr "boom")]).
  { apply Forall_singleton. reflexivity. }
  split; [exact Hfailed|].
  apply (nothing_to_send_makes_no_call steady 0
           [FailedEmail bob (VStr "boom")] backwards start Hfailed).
Defined.

Lemma reply_length_mismatch_witness :
  (∀ payloads, batch_send terse payloads 0%nat
               = (1%nat, Normal (BatchData [])))
  ∧ ∃ st' xs,
      send_batch terse "Bank <no-reply@customerbank.com>" 3
        [email_to alice] 0 {| outside := start; array := [] |}
      = (st', Normal tt)
      ∧ array st' = [] ++ xs
      ∧ ((length (@nil (option email_result)) ≤ 1)%nat →
         Forall3 entry_reported [] [] xs).
Proof.
  split; [reflexivity|].
  destruct (reply_length_mismatch terse "Bank <no-reply@customerbank.com>"
              3 [email_to alice] 0 {| outside := start; array := [] |}
              [{| p_from := "Bank <no-reply@customerbank.com>";
                  p_to := [field alice "email"];
                  p_subject := VStr "An offer for you";
                  p_html := "<p>Hello</p>";
                  p_x_customer_id :=
                    or_else (field alice "id") (VStr "unknown");
                  p_x_product_id := VStr "p1";
                  p_x_campaign := "ai_matched_offers_2025";
                  p_x_offer_code := "CBAA000000" |}]
              1%nat [])
    as (st' & xs & Hrun & Harr & Hshort & _).
  - apply Forall_singleton.
    apply (email_to_sendable alice "Alice" "Archer"); reflexivity.
  - reflexivity.
  - reflexivity.
  - exists st', xs. split; [exact Hrun|]. split; [exact Harr|].
    exact Hshort.
Defined.




Lemma preview_is_served_from_cache_witness :
  ∃ st1 em,
    previewEmail steady (Some (matched_to alice)) first_request
    = (st1, Normal (Preview em false))
    ∧ ∃ key t1,
        emailPreviewCache st1 !! key
        = Some {| PreviewCache.email := em; PreviewCache.timestamp := t1 |}.
Proof.
  assert (Hrun : ∃ st1 em,
    previewEmail steady (Some (matched_to alice)) first_request
    = (st1, Normal (Preview em false))).
  { eexists _, _. vm_compute. reflexivity. }
  destruct Hrun as (st1 & em & Hrun). exists st1, em.
  split; [exact Hrun|].
  destruct (preview_is_served_from_cache steady (matched_to alice)
              first_request st1 em Hrun) as (key & t1 & Hcached & _).
  by exists key, t1.
Defined.

Lemma sendEmails_negative_batch_size_witness :
  batchSize backwards = Some (-1)
  ∧ -1 < 0
  ∧ Exists (λ em, e_success em = true) [email_to alice]
  ∧ (sendEmails steady 7 [email_to alice] backwards start).2 = Normal None.
Proof.
  assert (Hsome : Exists (λ em, e_success em = true) [email_to alice]).
  { apply Exists_cons_hd. reflexivity. }
  split; [reflexivity|]. split; [lia|]. split; [exact Hsome|].
  apply (sendEmails_negative_batch_size steady 7 [email_to alice] backwards
           start (-1) eq_refl ltac:(lia) Hsome).
Defined.

Lemma every_message_is_for_its_customer_witness :
  0 < batchSize_or_default in_threes
  ∧ (length [email_to alice; FailedEmail bob (VStr "boom")] ≤ 5)%nat
  ∧ ∃ e' results evs,
      sendEmails steady 5 [email_to alice; FailedEmail bob (VStr "boom")]
        in_threes start = (e', Normal (Some results))
      ∧ trace e' = trace start ++ evs.
Proof.
  split; [reflexivity|]. split; [simpl; lia|].
  destruct (every_message_is_for_its_customer steady 5
              [email_to alice; FailedEmail bob (VStr "boom")] in_threes
              start eq_refl ltac:(simpl; lia))
    as (e' & results & evs & Hrun & Htrace & _).
  by exists e', results, evs.
Defined.

(** A run of the guard: a first visit to a page is sent to the login
    form, a wrong password changes nothing, and the page is served
    after the login, until the logout. *)
Example a_browser_session :
  (λ history, guard (session_after "secret" history) "/customers")
    <$> [ [];
          [PostLogin (VStr "admin") (VStr "guess")];
          [PostLogin (VStr "admin") (VStr "guess");
           PostLogin (VStr "admin") (VStr "secret")];
          [PostLogin (VStr "admin") (VStr "secret"); PostLogout true] ]
  = [Redirect "/login"; Redirect "/login"; Next; Redirect "/login"].
Proof. reflexivity. Qed.

End MoreSamples.
